(** * Obsidian vault -> CouchDB sync daemon: model and verified properties

    Shallow embedding of [obsidian-sync-daemon.py] (class [VaultSync]).
    Python [str] values that name things (paths, identifiers, event names)
    are [string]; file contents are lists of Unicode code points ([Z]);
    raw bytes are [Z] in [0, 256).  The document store, the marker set and
    the log are threaded through a state-and-exception monad. *)

From Stdlib Require Import ZArith Lia Bool Ascii String List.
From stdpp Require Import base gmap sets list strings.
Import ListNotations.

Local Open Scope string_scope.
Local Open Scope list_scope.
Local Open Scope Z_scope.

(** ** Python string primitives used by the daemon *)

Definition backslash : ascii := "092"%char.
Definition slash : ascii := "/"%char.

(** [c in s] for a single character. *)
Fixpoint has_char (c : ascii) (s : string) : bool :=
  match s with
  | EmptyString => false
  | String a s' => if Ascii.eqb a c then true else has_char c s'
  end.

(** [s.replace(a, b)] for one-character [a] and [b]. *)
Fixpoint replace_char (a b : ascii) (s : string) : string :=
  match s with
  | EmptyString => EmptyString
  | String c s' => String (if Ascii.eqb c a then b else c) (replace_char a b s')
  end.

(** [sep.join(parts)]. *)
Fixpoint join (sep : string) (parts : list string) : string :=
  match parts with
  | [] => EmptyString
  | [a] => a
  | a :: rest => a +:+ sep +:+ join sep rest
  end.

(** [s.endswith(suf)]. *)
Fixpoint endswith (s suf : string) : bool :=
  if String.eqb s suf then true
  else match s with
       | EmptyString => false
       | String _ s' => endswith s' suf
       end.

(** [sub in s] (substring test). *)
Fixpoint contains (s sub : string) : bool :=
  if String.prefix sub s then true
  else match s with
       | EmptyString => false
       | String _ s' => contains s' sub
       end.

(** [s.split(c)] for a one-character separator: never returns [[]]. *)
Fixpoint split_on (c : ascii) (s : string) : list string :=
  match s with
  | EmptyString => [EmptyString]
  | String a s' =>
      if Ascii.eqb a c then EmptyString :: split_on c s'
      else match split_on c s' with
           | [] => [String a EmptyString]
           | w :: ws => String a w :: ws
           end
  end.

(** ** pathlib paths

    A path is its tuple of [parts]; for an absolute POSIX path the first
    part is the anchor ["/"].  The flavour records the host convention:
    what [str()] puts between the parts, and which characters can never
    occur inside one part. *)

Inductive flavour := Posix | Windows.

Definition Path := list string.

Definition sep (fl : flavour) : ascii :=
  match fl with Posix => slash | Windows => backslash end.

(** A part as pathlib produces it below the anchor: not empty, not ["."],
    free of the characters the flavour parses as separators. *)
Definition wf_part (fl : flavour) (s : string) : bool :=
  negb (String.eqb s "") && negb (String.eqb s ".") && negb (has_char slash s)
  && match fl with Posix => true | Windows => negb (has_char backslash s) end.

(** [PurePath.relative_to]: [None] stands for the [ValueError] raised when
    [other] is not a prefix of the path.  (The case folding that the
    Windows flavour applies while comparing is not modelled.) *)
Fixpoint relative_to (p other : Path) : option Path :=
  match other with
  | [] => Some p
  | o :: other' =>
      match p with
      | [] => None
      | a :: p' => if String.eqb a o then relative_to p' other' else None
      end
  end.

(** [str()] of a relative path. *)
Definition str_of_rel (fl : flavour) (rel : Path) : string :=
  match rel with
  | [] => "."
  | _ => join (String (sep fl) EmptyString) rel
  end.

(** [VaultSync._doc_id_from_path]. *)
Definition _doc_id_from_path (fl : flavour) (vault_path file_path : Path)
  : option string :=
  match relative_to file_path vault_path with
  | None => None
  | Some rel_path => Some (replace_char backslash slash (str_of_rel fl rel_path))
  end.

(** The reserved tooling directory, as [initial_sync] tests it:
    [".obsidian" in md_file.parts]. *)
Definition reserved : string := ".obsidian".

Definition in_parts (name : string) (p : Path) : bool :=
  existsb (String.eqb name) p.

(** ** Text codecs

    [read_text(encoding='utf-8')] decodes strictly and then applies
    universal-newline translation; [str.encode()] is the strict UTF-8
    encoder; [base64.b64encode(..).decode()] yields an ASCII string. *)

(** Unicode scalar values: what a strictly decoded [str] holds. *)
Definition is_scalar (c : Z) : bool :=
  ((0 <=? c) && (c <? 0xD800)) || ((0xE000 <=? c) && (c <=? 0x10FFFF)).

Definition is_byte (b : Z) : bool := (0 <=? b) && (b <? 256).

Definition utf8_encode_char (c : Z) : list Z :=
  if c <? 0x80 then [c]
  else if c <? 0x800 then [0xC0 + c / 64; 0x80 + c mod 64]
  else if c <? 0x10000 then
    [0xE0 + c / 4096; 0x80 + (c / 64) mod 64; 0x80 + c mod 64]
  else
    [0xF0 + c / 262144; 0x80 + (c / 4096) mod 64;
     0x80 + (c / 64) mod 64; 0x80 + c mod 64].

(** [content.encode()]: [None] is [UnicodeEncodeError] (a lone surrogate). *)
Fixpoint str_encode (content : list Z) : option (list Z) :=
  match content with
  | [] => Some []
  | c :: rest =>
      if is_scalar c then
        match str_encode rest with
        | Some bs => Some (utf8_encode_char c ++ bs)
        | None => None
        end
      else None
  end.

Definition is_cont (b : Z) : bool := (0x80 <=? b) && (b <? 0xC0).

(** Strict UTF-8 decoding: [None] is [UnicodeDecodeError].  Overlong
    forms, surrogates and values above U+10FFFF are rejected. *)
Fixpoint utf8_decode (bs : list Z) : option (list Z) :=
  match bs with
  | [] => Some []
  | b0 :: r0 =>
      if (0 <=? b0) && (b0 <? 0x80) then
        match utf8_decode r0 with Some cs => Some (b0 :: cs) | None => None end
      else if (0xC0 <=? b0) && (b0 <? 0xE0) then
        match r0 with
        | b1 :: r1 =>
            let c := (b0 - 0xC0) * 64 + (b1 - 0x80) in
            if is_cont b1 && (0x80 <=? c) then
              match utf8_decode r1 with Some cs => Some (c :: cs) | None => None end
            else None
        | _ => None
        end
      else if (0xE0 <=? b0) && (b0 <? 0xF0) then
        match r0 with
        | b1 :: b2 :: r2 =>
            let c := (b0 - 0xE0) * 4096 + (b1 - 0x80) * 64 + (b2 - 0x80) in
            if is_cont b1 && is_cont b2 && (0x800 <=? c) && is_scalar c then
              match utf8_decode r2 with Some cs => Some (c :: cs) | None => None end
            else None
        | _ => None
        end
      else if (0xF0 <=? b0) && (b0 <? 0xF8) then
        match r0 with
        | b1 :: b2 :: b3 :: r3 =>
            let c := (b0 - 0xF0) * 262144 + (b1 - 0x80) * 4096
                     + (b2 - 0x80) * 64 + (b3 - 0x80) in
            if is_cont b1 && is_cont b2 && is_cont b3
               && (0x10000 <=? c) && (c <=? 0x10FFFF) then
              match utf8_decode r3 with Some cs => Some (c :: cs) | None => None end
            else None
        | _ => None
        end
      else None
  end.

(** Text-mode newline translation ([newline=None]): CR LF and lone CR
    both become LF. *)
Fixpoint universal_newlines (cs : list Z) : list Z :=
  match cs with
  | [] => []
  | c :: rest =>
      if c =? 13 then
        10 :: match rest with
              | [] => []
              | d :: rest' =>
                  if d =? 10 then universal_newlines rest'
                  else universal_newlines rest
              end
      else c :: universal_newlines rest
  end.

Definition b64_alphabet : string :=
  "ABCDEFGHIJKLMNOPQRSTUVWXYZabcdefghijklmnopqrstuvwxyz0123456789+/".

Definition b64_pad : ascii := "="%char.

Definition b64char (n : Z) : ascii :=
  match String.get (Z.to_nat n) b64_alphabet with
  | Some c => c
  | None => b64_pad
  end.

(** [base64.b64encode(bs).decode()]. *)
Fixpoint b64encode (bs : list Z) : string :=
  match bs with
  | [] => EmptyString
  | [a] =>
      String (b64char (a / 4)) (String (b64char ((a mod 4) * 16))
        (String b64_pad (String b64_pad EmptyString)))
  | [a; b] =>
      String (b64char (a / 4)) (String (b64char ((a mod 4) * 16 + b / 16))
        (String (b64char ((b mod 16) * 4)) (String b64_pad EmptyString)))
  | a :: b :: c :: rest =>
      String (b64char (a / 4)) (String (b64char ((a mod 4) * 16 + b / 16))
        (String (b64char ((b mod 16) * 4 + c / 64))
          (String (b64char (c mod 64)) (b64encode rest))))
  end.

(** The reader's side of the payload (not in the daemon): standard
    base64 decoding, then strict UTF-8 decoding. *)
Fixpoint b64index (c : ascii) (alphabet : string) (i : Z) : option Z :=
  match alphabet with
  | EmptyString => None
  | String a rest => if Ascii.eqb a c then Some i else b64index c rest (i + 1)
  end.

Definition b64val (c : ascii) : option Z := b64index c b64_alphabet 0.

Fixpoint b64decode (s : string) : option (list Z) :=
  match s with
  | EmptyString => Some []
  | String c0 (String c1 (String c2 (String c3 rest))) =>
      match b64val c0, b64val c1 with
      | Some v0, Some v1 =>
          if Ascii.eqb c2 b64_pad then
            if Ascii.eqb c3 b64_pad && String.eqb rest "" then
              Some [v0 * 4 + v1 / 16]
            else None
          else
            match b64val c2 with
            | Some v2 =>
                if Ascii.eqb c3 b64_pad then
                  if String.eqb rest "" then
                    Some [v0 * 4 + v1 / 16; (v1 mod 16) * 16 + v2 / 4]
                  else None
                else
                  match b64val c3, b64decode rest with
                  | Some v3, Some bs =>
                      Some (v0 * 4 + v1 / 16 :: (v1 mod 16) * 16 + v2 / 4
                            :: (v2 mod 4) * 64 + v3 :: bs)
                  | _, _ => None
                  end
            | None => None
            end
      | _, _ => None
      end
  | _ => None
  end.

Definition decode_payload (data : string) : option (list Z) :=
  match b64decode data with
  | Some bs => utf8_decode bs
  | None => None
  end.

(** ** The local filesystem tree (read by the daemon) *)

#[local] Set Warnings "-register-all".

Inductive node :=
| File (data : list Z)
| Dir (entries : list (string * node)).

Fixpoint lookup_entry (name : string) (es : list (string * node)) : option node :=
  match es with
  | [] => None
  | (n, child) :: es' => if String.eqb n name then Some child else lookup_entry name es'
  end.

Fixpoint walk (n : node) (p : list string) : option node :=
  match p with
  | [] => Some n
  | name :: p' =>
      match n with
      | File _ => None
      | Dir es =>
          match lookup_entry name es with
          | Some child => walk child p'
          | None => None
          end
      end
  end.

(** The tree is rooted at the anchor ["/"]; the daemon only ever builds
    absolute paths (its vault roots are absolute). *)
Definition fs_lookup (root : node) (p : Path) : option node :=
  match p with
  | anchor :: rest => if String.eqb anchor "/" then walk root rest else None
  | [] => None
  end.

(** [Path.exists()] and [Path.is_file()]. *)
Definition path_exists (root : node) (p : Path) : bool :=
  match fs_lookup root p with Some _ => true | None => false end.

Definition path_is_file (root : node) (p : Path) : bool :=
  match fs_lookup root p with Some (File _) => true | _ => false end.

(** [PurePosixPath(s)]: split on ["/"], drop empty and ["."] components,
    keep the anchor.  (The special anchor of a path that starts with
    exactly two slashes is not represented: inotify reports directories
    below the vault root, which starts with one.) *)
Definition parse_posix (s : string) : Path :=
  let comps :=
    List.filter (fun c => negb (String.eqb c "") && negb (String.eqb c "."))
                (split_on slash s) in
  if String.prefix "/" s then "/" :: comps else comps.

(** [Path(path) / filename]: an absolute right operand replaces the left. *)
Definition path_join (p : Path) (name : string) : Path :=
  if String.prefix "/" name then parse_posix name else p ++ parse_posix name.

(** [dir.rglob("*.md")]: every entry (file or directory) below [dir] whose
    name ends in [".md"]; a directory's own matches first, then those of
    its subdirectories, each in listing order. *)
Fixpoint rglob_md (here : Path) (n : node) : list Path :=
  match n with
  | File _ => []
  | Dir es =>
      List.map (fun e => here ++ [fst e])
               (List.filter (fun e => endswith (fst e) ".md") es)
      ++ List.flat_map (fun e => rglob_md (here ++ [fst e]) (snd e)) es
  end.

(** ** Documents, the store and the daemon's state *)

(** JSON values the daemon stores in a document. *)
Inductive value :=
| VStr (s : string)
| VInt (n : Z).

(** A CouchDB document: its [_id] and the remaining fields.  The store
    keeps the fields under the identifier; revision bookkeeping is the
    client's and is not represented. *)
Record Doc := mkDoc { _id : string; body : gmap string value }.

Definition doc_set (k : string) (v : value) (d : Doc) : Doc :=
  mkDoc (_id d) (<[k := v]> (body d)).

Inductive exn :=
| ResourceNotFound
| ServerError
| ResourceConflict
| UnicodeDecodeError
| UnicodeEncodeError
| FileNotFoundError
| IsADirectoryError
| ValueError
| KeyboardInterrupt
| SystemExit (code : Z).

(** [except Exception] does not catch [KeyboardInterrupt] or [SystemExit]. *)
Definition is_Exception (e : exn) : bool :=
  match e with
  | KeyboardInterrupt | SystemExit _ => false
  | _ => true
  end.

Definition is_ResourceNotFound (e : exn) : bool :=
  match e with ResourceNotFound => true | _ => false end.

Definition is_KeyboardInterrupt (e : exn) : bool :=
  match e with KeyboardInterrupt => true | _ => false end.

Inductive StoreCall :=
| Get (id : string)
| Save (doc : Doc)
| Delete (doc : Doc).

Inductive level := INFO | ERROR.

Inductive LogMsg :=
| Synced (doc_id : string)
| FailedToSync (doc_id : string) (e : exn)
| StartingInitialSync (vault : string)
| InitialSyncComplete (count : Z)
| WatchingFilesystem (vault_path : Path)
| FileChanged (filename : string)
| DeletedFromDB (doc_id : string)
| StartingDaemon (vault : string)
| ShuttingDown
| FatalError (e : exn).

(** What is fixed when the daemon starts: the vault configuration and the
    behaviour of the outside world (the engine clock in milliseconds and
    the errors the store client raises, by call number). *)
Record Env := mkEnv {
  vault_name : string;
  vault_path : Path;
  clock : nat -> Z;
  faults : nat -> option exn
}.

(** What changes while it runs. *)
Record World := mkWorld {
  fs : node;
  db : gmap string (gmap string value);
  _syncing : gset string;
  log : list (level * LogMsg);
  calls : list StoreCall;
  clock_reads : nat
}.

Definition set_db (f : gmap string (gmap string value) -> gmap string (gmap string value))
  (w : World) : World :=
  mkWorld (fs w) (f (db w)) (_syncing w) (log w) (calls w) (clock_reads w).

Definition set_syncing (f : gset string -> gset string) (w : World) : World :=
  mkWorld (fs w) (db w) (f (_syncing w)) (log w) (calls w) (clock_reads w).

Definition add_log (r : level * LogMsg) (w : World) : World :=
  mkWorld (fs w) (db w) (_syncing w) (log w ++ [r]) (calls w) (clock_reads w).

Definition add_call (c : StoreCall) (w : World) : World :=
  mkWorld (fs w) (db w) (_syncing w) (log w) (calls w ++ [c]) (clock_reads w).

Definition tick_clock (w : World) : World :=
  mkWorld (fs w) (db w) (_syncing w) (log w) (calls w) (S (clock_reads w)).

(** ** State and exceptions *)

Inductive result (A : Type) :=
| Ok (a : A)
| Raise (e : exn).
Arguments Ok {A} a.
Arguments Raise {A} e.

Definition M (A : Type) : Type := World -> result A * World.

Definition ret {A} (a : A) : M A := fun w => (Ok a, w).

Definition raise {A} (e : exn) : M A := fun w => (Raise e, w).

Definition bind {A B} (m : M A) (k : A -> M B) : M B :=
  fun w =>
    match m w with
    | (Ok a, w') => k a w'
    | (Raise e, w') => (Raise e, w')
    end.

#[global] Instance M_ret : MRet M := @ret.
#[global] Instance M_bind : MBind M := fun A B k m => bind m k.

Definition gets {A} (f : World -> A) : M A := fun w => (Ok (f w), w).

Definition modify (f : World -> World) : M unit := fun w => (Ok tt, f w).

(** [try: body / except <catches> as e: handler e]. *)
Definition try_except {A} (body : M A) (catches : exn -> bool) (handler : exn -> M A)
  : M A :=
  fun w =>
    match body w with
    | (Ok a, w') => (Ok a, w')
    | (Raise e, w') => if catches e then handler e w' else (Raise e, w')
    end.

(** [try: body / finally: fin]. *)
Definition try_finally {A} (body : M A) (fin : M unit) : M A :=
  fun w =>
    match body w with
    | (r, w') =>
        match fin w' with
        | (Ok _, w'') => (r, w'')
        | (Raise e, w'') => (Raise e, w'')
        end
    end.

Definition of_option {A} (o : option A) (e : exn) : M A :=
  match o with Some a => ret a | None => raise e end.

Definition logger_info (m : LogMsg) : M unit := modify (add_log (INFO, m)).
Definition logger_error (m : LogMsg) : M unit := modify (add_log (ERROR, m)).

(** [int(time.time() * 1000)]. *)
Definition time_ms (env : Env) : M Z :=
  fun w => (Ok (clock env (clock_reads w)), tick_clock w).

(** ** The store client (external collaborator)

    Every call is recorded; the environment may make it raise. *)
Definition store_call (env : Env) (c : StoreCall) : M unit :=
  fun w =>
    match faults env (length (calls w)) with
    | Some e => (Raise e, add_call c w)
    | None => (Ok tt, add_call c w)
    end.

(** [self.db[doc_id]]. *)
Definition db_getitem (env : Env) (doc_id : string) : M Doc :=
  store_call env (Get doc_id) ;;
  d ← gets (fun w => db w !! doc_id) ;
  match d with
  | Some fields => ret (mkDoc doc_id fields)
  | None => raise ResourceNotFound
  end.

(** [self.db.save(doc)]. *)
Definition db_save (env : Env) (doc : Doc) : M unit :=
  store_call env (Save doc) ;;
  modify (set_db (fun m => <[_id doc := body doc]> m)).

(** [self.db.delete(doc)]. *)
Definition db_delete (env : Env) (doc : Doc) : M unit :=
  store_call env (Delete doc) ;;
  d ← gets (fun w => db w !! _id doc) ;
  match d with
  | Some _ => modify (set_db (fun m => delete (_id doc) m))
  | None => raise ResourceNotFound
  end.

(** [file_path.read_text(encoding='utf-8')]. *)
Definition read_text (file_path : Path) : M (list Z) :=
  root ← gets fs ;
  match fs_lookup root file_path with
  | None => raise FileNotFoundError
  | Some (Dir _) => raise IsADirectoryError
  | Some (File bytes) =>
      match utf8_decode bytes with
      | Some cs => ret (universal_newlines cs)
      | None => raise UnicodeDecodeError
      end
  end.

(** ** The sync engine ([VaultSync]) *)

(** The daemon runs on the inotify host, so its paths are POSIX paths. *)
Definition doc_id_of (env : Env) (file_path : Path) : M string :=
  of_option (_doc_id_from_path Posix (vault_path env) file_path) ValueError.

(** The statements of the [try] block of [_sync_file_to_db] that follow
    [self._syncing.add(doc_id)]: read, get or create, update, save. *)
Definition upsert_steps (env : Env) (file_path : Path) (doc_id : string) : M unit :=
  content ← read_text file_path ;
  doc ← try_except (db_getitem env doc_id) is_ResourceNotFound
          (fun _ => mret (mkDoc doc_id ∅)) ;
  encoded ← of_option (str_encode content) UnicodeEncodeError ;
  let doc := doc_set "data" (VStr (b64encode encoded)) doc in
  now ← time_ms env ;
  let doc := doc_set "mtime" (VInt now) doc in
  let doc := doc_set "size" (VInt (Z.of_nat (length content))) doc in
  let doc := doc_set "type" (VStr "plain") doc in
  db_save env doc ;;
  logger_info (Synced doc_id).

(** [VaultSync._sync_file_to_db] (Upsert). *)
Definition _sync_file_to_db (env : Env) (file_path : Path) : M unit :=
  root ← gets fs ;
  if negb (path_exists root file_path) || negb (path_is_file root file_path)
  then mret tt
  else
    doc_id ← doc_id_of env file_path ;
    syncing ← gets _syncing ;
    if bool_decide (doc_id ∈ syncing) then mret tt
    else
      try_finally
        (try_except
           (modify (set_syncing (fun s => s ∪ {[doc_id]})) ;;
            upsert_steps env file_path doc_id)
           is_Exception
           (fun e => logger_error (FailedToSync doc_id e)))
        (modify (set_syncing (fun s => s ∖ {[doc_id]}))).

(** The loop of [initial_sync] over the files [rglob] yields. *)
Fixpoint sync_each (env : Env) (files : list Path) (count : Z) : M Z :=
  match files with
  | [] => mret count
  | md_file :: rest =>
      if in_parts reserved md_file then sync_each env rest count
      else _sync_file_to_db env md_file ;; sync_each env rest (count + 1)
  end.

(** [VaultSync.initial_sync] (bulk reconciliation). *)
Definition initial_sync (env : Env) : M unit :=
  logger_info (StartingInitialSync (vault_name env)) ;;
  root ← gets fs ;
  let files :=
    match fs_lookup root (vault_path env) with
    | Some n => rglob_md (vault_path env) n
    | None => []
    end in
  count ← sync_each env files 0 ;
  logger_info (InitialSyncComplete count).

(** One inotify notification: [(_, type_names, path, filename)]. *)
Record Event := mkEvent {
  type_names : list string;
  path : string;
  filename : string
}.

Definition in_names (name : string) (names : list string) : bool :=
  existsb (String.eqb name) names.

(** What the body of the watch loop does with one notification: the
    chain of [continue] filters and the [if]/[elif] on the event names. *)
Inductive action :=
| Ignore
| Upsert (file_path : Path)
| DeletePropagation (file_path : Path).

Definition classify (ev : Event) : action :=
  if String.eqb (filename ev) "" || negb (endswith (filename ev) ".md") then Ignore
  else if contains (path ev) ".obsidian" then Ignore
  else
    let file_path := path_join (parse_posix (path ev)) (filename ev) in
    if in_names "IN_CLOSE_WRITE" (type_names ev)
       || in_names "IN_MOVED_TO" (type_names ev)
    then Upsert file_path
    else if in_names "IN_DELETE" (type_names ev)
            || in_names "IN_MOVED_FROM" (type_names ev)
    then DeletePropagation file_path
    else Ignore.

(** The delete branch of the watch loop. *)
Definition delete_propagation (env : Env) (file_path : Path) : M unit :=
  try_except
    (doc_id ← doc_id_of env file_path ;
     doc ← db_getitem env doc_id ;
     db_delete env doc ;;
     logger_info (DeletedFromDB doc_id))
    is_ResourceNotFound
    (fun _ => mret tt).

Definition handle_event (env : Env) (ev : Event) : M unit :=
  match classify ev with
  | Ignore => mret tt
  | Upsert file_path =>
      logger_info (FileChanged (filename ev)) ;;
      _sync_file_to_db env file_path
  | DeletePropagation file_path => delete_propagation env file_path
  end.

(** The [for event in i.event_gen(...)] loop over the notifications
    delivered so far. *)
Fixpoint watch_loop (env : Env) (events : list Event) : M unit :=
  match events with
  | [] => mret tt
  | ev :: rest => handle_event env ev ;; watch_loop env rest
  end.

(** [VaultSync.watch_filesystem]. *)
Definition watch_filesystem (env : Env) (events : list Event) : M unit :=
  logger_info (WatchingFilesystem (vault_path env)) ;;
  watch_loop env events.

Definition sys_exit (code : Z) : M unit := raise (SystemExit code).

(** [VaultSync.run]. *)
Definition run (env : Env) (events : list Event) : M unit :=
  logger_info (StartingDaemon (vault_name env)) ;;
  initial_sync env ;;
  try_except (watch_filesystem env events) is_KeyboardInterrupt
    (fun _ => logger_info ShuttingDown ;; sys_exit 0).

(** The [__main__] guard around [sync.run()]. *)
Definition main (env : Env) (events : list Event) : M unit :=
  try_except (run env events) is_Exception
    (fun e => logger_error (FatalError e) ;; sys_exit 1).

(** What became of the process after the notifications delivered so far:
    still blocked on the event source, exited with a status, or killed by
    an interrupt outside the watch loop. *)
Inductive status := Watching | Exited (code : Z) | Interrupted.

Definition status_of (r : result unit) : status :=
  match r with
  | Ok _ => Watching
  | Raise (SystemExit code) => Exited code
  | Raise _ => Interrupted
  end.

(** ** Vocabulary of the properties *)

(** A part spelled the same way under both host conventions: well formed
    for the flavour and free of backslashes. *)
Definition portable_part (fl : flavour) (s : string) : bool :=
  wf_part fl s && negb (has_char backslash s).

(** The notification's directory lies under the reserved directory: one
    of its parts is [".obsidian"] (the test [initial_sync] applies). *)
Definition under_reserved (ev : Event) : bool :=
  in_parts reserved (parse_posix (path ev)).

(** Close-after-write or moved-in. *)
Definition write_class (ev : Event) : bool :=
  in_names "IN_CLOSE_WRITE" (type_names ev) || in_names "IN_MOVED_TO" (type_names ev).

(** Delete or moved-out. *)
Definition delete_class (ev : Event) : bool :=
  in_names "IN_DELETE" (type_names ev) || in_names "IN_MOVED_FROM" (type_names ev).

Definition event_file (ev : Event) : Path :=
  path_join (parse_posix (path ev)) (filename ev).

(** A computation leaves the component [proj] of the world as it found
    it, whatever its outcome. *)
Definition preserves {A B} (proj : World -> B) (m : M A) : Prop :=
  forall w, proj (snd (m w)) = proj w.

(** The fields Upsert writes over the fetched (or fresh) document. *)
Definition upsert_fields (old : gmap string value) (content encoded : list Z) (now : Z)
  : gmap string value :=
  <["type" := VStr "plain"]>
    (<["size" := VInt (Z.of_nat (length content))]>
       (<["mtime" := VInt now]>
          (<["data" := VStr (b64encode encoded)]> old))).

(** The world a successful Upsert of [content] under [id] leaves behind. *)
Definition synced_world (env : Env) (id : string) (content encoded : list Z)
  (w : World) : World :=
  let fields :=
    upsert_fields (default ∅ (db w !! id)) content encoded
                  (clock env (clock_reads w)) in
  mkWorld (fs w) (<[id := fields]> (db w)) (_syncing w)
          (log w ++ [(INFO, Synced id)])
          (calls w ++ [Get id; Save (mkDoc id fields)])
          (S (clock_reads w)).

(** ** Scenario data *)

Definition personal : Path := ["/"; "opt"; "vaults"; "personal"].

Definition quiet_env : Env :=
  mkEnv "personal" personal (fun n => 1700000000000 + Z.of_nat n) (fun _ => None).

Definition world_of (root : node) : World := mkWorld root ∅ ∅ [] [] 0.

Definition vault_tree (entries : list (string * node)) : node :=
  Dir [("opt", Dir [("vaults", Dir [("personal", Dir entries)])])].

(** A store whose third call (the first of the watch loop below) fails
    with a server error, and two notifications: a delete, then a write. *)
Definition flaky_env : Env :=
  mkEnv "personal" personal (fun n => 1700000000000 + Z.of_nat n)
        (fun n => if Nat.eqb n 2 then Some ServerError else None).

Definition b_only : node :=
  vault_tree [("notes", Dir [("b.md", File [104; 105])])].

Definition delete_then_write : list Event :=
  [mkEvent ["IN_DELETE"] "/opt/vaults/personal/notes" "a.md";
   mkEvent ["IN_CLOSE_WRITE"] "/opt/vaults/personal/notes" "b.md"].

(** A note holding the two bytes of U+00E9. *)
Definition accent_tree : node :=
  vault_tree [("notes", Dir [("e.md", File [195; 169])])].

(** The note of end-to-end scenario 1. *)
Definition hello_tree : node :=
  vault_tree [("notes", Dir [("a.md", File [104; 101; 108; 108; 111])])].

(** A note with a CR LF line ending. *)
Definition crlf_tree : node :=
  vault_tree [("notes", Dir [("w.md", File [97; 13; 10; 98])])].

(** End-to-end scenario 3: a note inside the reserved directory. *)
Definition reserved_tree : node :=
  vault_tree [("drafts", Dir [(".obsidian", Dir [("cache.md", File [120])])])].

(** The note of end-to-end scenario 4: bytes that are not UTF-8. *)
Definition bad_tree : node :=
  vault_tree [("notes", Dir [("bad.md", File [255; 254])])].

(** Scenario 1's tree while [notes/a.md] is marked busy. *)
Definition busy_world : World :=
  mkWorld hello_tree ∅ {["notes/a.md"]} [] [] 0.

(** ** Vocabulary of the further properties *)

(** The identifier a store call is about. *)
Definition call_id (c : StoreCall) : string :=
  match c with
  | Get id => id
  | Save doc => _id doc
  | Delete doc => _id doc
  end.

Definition is_Delete (c : StoreCall) : bool :=
  match c with Delete _ => true | _ => false end.

(** [m] only appends to the record of store calls, and every call it
    appends satisfies [R]. *)
Definition appends_calls {A} (R : StoreCall -> Prop) (m : M A) : Prop :=
  forall w, exists extra, calls (snd (m w)) = calls w ++ extra /\ Forall R extra.

(** Every exception [m] raises satisfies [P]. *)
Definition raises_only {A} (P : exn -> Prop) (m : M A) : Prop :=
  forall w e w', m w = (Raise e, w') -> P e.

(** Every value [m] returns satisfies [Q]. *)
Definition returns_only {A} (Q : A -> Prop) (m : M A) : Prop :=
  forall w a w', m w = (Ok a, w') -> Q a.

(** The paths the bulk scan enumerates, in order. *)
Definition scanned (env : Env) (w : World) : list Path :=
  match fs_lookup (fs w) (vault_path env) with
  | Some n => rglob_md (vault_path env) n
  | None => []
  end.

Definition not_reserved (p : Path) : bool := negb (in_parts reserved p).

(** The [try] statement of [_sync_file_to_db], as the function runs it
    once the existence and busy checks have passed. *)
Definition guarded_upsert (env : Env) (file_path : Path) (doc_id : string) : M unit :=
  try_finally
    (try_except
       (modify (set_syncing (fun s => s ∪ {[doc_id]})) ;;
        upsert_steps env file_path doc_id)
       is_Exception
       (fun e => logger_error (FailedToSync doc_id e)))
    (modify (set_syncing (fun s => s ∖ {[doc_id]}))).


(** A file that exists outside the vault root. *)
Definition outside_tree : node :=
  Dir [("tmp", Dir [("x.md", File [120])]);
       ("opt", Dir [("vaults", Dir [("personal", Dir [])])])].

(** A readable note, an undecodable one, a directory named like a note
    and a note under the reserved directory. *)
Definition mixed_tree : node :=
  vault_tree
    [("notes", Dir [("a.md", File [104; 101; 108; 108; 111]);
                    ("bad.md", File [255; 254]);
                    ("dir.md", Dir [])]);
     ("drafts", Dir [(".obsidian", Dir [("cache.md", File [120])])])].

(** A store client interrupted (or failing) at one call number. *)
Definition failing_env (at_call : nat) (e : exn) : Env :=
  mkEnv "personal" personal (fun n => 1700000000000 + Z.of_nat n)
        (fun n => if Nat.eqb n at_call then Some e else None).

(** Scenario 1's tree with a document already stored for the note, which
    carries a field the daemon does not write. *)
Definition stored_world : World :=
  mkWorld hello_tree {["notes/a.md" := {["children" := VStr "x"]}]} ∅ [] [] 0.

(** ** Startup: [VAULTS], [VaultSync.__init__] and the [__main__] block *)

(** [VAULTS]: vault name -> (database name, root directory), in the
    order the dictionary lists them. *)
Definition VAULTS : list (string * (string * Path)) :=
  [("personal", ("personal", ["/"; "opt"; "vaults"; "personal"]));
   ("greypillar", ("greypillar", ["/"; "opt"; "vaults"; "greypillar"]))].

Fixpoint lookup_vault (name : string) (table : list (string * (string * Path)))
  : option (string * Path) :=
  match table with
  | [] => None
  | (n, cfg) :: rest => if String.eqb n name then Some cfg else lookup_vault name rest
  end.

(** The world the process starts in: what opening a database raises (if
    anything), the clock and the store client's later failures, the local
    tree, and the documents of each database. *)
Record Host := mkHost {
  connect : string -> option exn;
  host_clock : nat -> Z;
  host_faults : nat -> option exn;
  host_tree : node;
  host_store : string -> gmap string (gmap string value)
}.

(** Log records of the whole process: the one [__init__] writes, and the
    engine's. *)
Inductive ProcessMsg :=
| ConnectedToCouchDB (db_name : string)
| Engine (m : LogMsg).

Record Started := mkStarted {
  started_env : Env;
  started_world : World;
  started_log : list (level * ProcessMsg)
}.

(** [VaultSync.__init__]: [Raise ValueError] for an unknown vault, the
    client's exception when the database cannot be opened, otherwise the
    configured engine with an empty marker set. *)
Definition __init__ (host : Host) (vault_name : string) : result Started :=
  match lookup_vault vault_name VAULTS with
  | None => Raise ValueError
  | Some (db_name, root) =>
      match connect host db_name with
      | Some e => Raise e
      | None =>
          Ok (mkStarted
                (mkEnv vault_name root (host_clock host) (host_faults host))
                (mkWorld (host_tree host) (host_store host db_name) ∅ [] [] 0)
                [(INFO, ConnectedToCouchDB db_name)])
      end
  end.

Definition usage : list string :=
  ["Usage: python3 obsidian-sync-daemon.py <vault_name>";
   "Available vaults: " +:+ join ", " (List.map fst VAULTS)].

(** What the process did: lines printed, records logged, how it ended
    (or that it is still watching), and the engine state if it started. *)
Record Process := mkProcess {
  stdout : list string;
  process_log : list (level * ProcessMsg);
  exit_status : status;
  engine_world : option World
}.

(** The [__main__] block, given [sys.argv] and the notifications
    delivered so far. *)
Definition __main__ (host : Host) (argv : list string) (events : list Event)
  : Process :=
  match argv with
  | _ :: vault :: _ =>
      match __init__ host vault with
      | Ok st =>
          let r := main (started_env st) events (started_world st) in
          mkProcess []
            (started_log st
             ++ List.map (fun rec => (fst rec, Engine (snd rec))) (log (snd r)))
            (status_of (fst r)) (Some (snd r))
      | Raise e =>
          if is_Exception e
          then mkProcess [] [(ERROR, Engine (FatalError e))] (Exited 1) None
          else mkProcess [] [] (status_of (Raise e)) None
      end
  | _ => mkProcess usage [] (Exited 1) None
  end.

(** A host where the databases open and the store never fails. *)
Definition quiet_host (root : node) : Host :=
  mkHost (fun _ => None) (fun n => 1700000000000 + Z.of_nat n) (fun _ => None)
         root (fun _ => ∅).

(** * Properties *)

(** ** Strings *)

Lemma has_char_app c a b :
  has_char c (a +:+ b) = has_char c a || has_char c b.
Proof.
  induction a as [|x a IH]; simpl; [reflexivity|].
  destruct (Ascii.eqb x c); [reflexivity|exact IH].
Qed.

Lemma replace_char_app a b s t :
  replace_char a b (s +:+ t) = replace_char a b s +:+ replace_char a b t.
Proof. induction s as [|x s IH]; simpl; [reflexivity|]. now rewrite IH. Qed.

Lemma replace_char_absent a b s :
  has_char a s = false -> replace_char a b s = s.
Proof.
  induction s as [|x s IH]; simpl; [reflexivity|].
  destruct (Ascii.eqb x a); [discriminate|]. intros H. now rewrite IH.
Qed.

Lemma replace_char_removes a b s :
  a <> b -> has_char a (replace_char a b s) = false.
Proof.
  intros Hab. induction s as [|x s IH]; simpl; [reflexivity|].
  destruct (Ascii.eqb x a) eqn:E.
  - destruct (Ascii.eqb_spec b a) as [->|_]; [congruence|exact IH].
  - rewrite E. exact IH.
Qed.

(** A chunk free of [c], followed by [c], is read back unambiguously. *)
Lemma chunk_sep_inj c a b x y :
  has_char c a = false -> has_char c b = false ->
  a +:+ String c x = b +:+ String c y -> a = b /\ x = y.
Proof.
  revert b. induction a as [|u a IH]; intros [|v b]; simpl; intros Ha Hb E.
  - injection E as E. now split.
  - injection E as <- _. now rewrite Ascii.eqb_refl in Hb.
  - injection E as -> _. now rewrite Ascii.eqb_refl in Ha.
  - injection E as -> E.
    destruct (Ascii.eqb v c); [discriminate|].
    destruct (IH b Ha Hb E) as [-> ->]. now split.
Qed.

Lemma chunk_no_sep c a b y :
  has_char c a = false -> a <> b +:+ String c y.
Proof.
  intros Ha E. rewrite E, has_char_app in Ha. simpl in Ha.
  rewrite Ascii.eqb_refl, orb_true_r in Ha. discriminate.
Qed.

Lemma join_cons sep a b rest :
  join sep (a :: b :: rest) = a +:+ sep +:+ join sep (b :: rest).
Proof. reflexivity. Qed.

Lemma join_inj c (l1 l2 : list string) :
  forallb (fun s => negb (has_char c s)) l1 = true ->
  forallb (fun s => negb (has_char c s)) l2 = true ->
  l1 <> [] -> l2 <> [] ->
  join (String c EmptyString) l1 = join (String c EmptyString) l2 -> l1 = l2.
Proof.
  revert l2. induction l1 as [|a l1 IH]; intros l2 H1 H2 N1 N2 E; [congruence|].
  destruct l2 as [|b l2]; [congruence|].
  simpl in H1, H2.
  apply andb_prop in H1 as [Ha H1]. apply andb_prop in H2 as [Hb H2].
  apply negb_true_iff in Ha, Hb.
  destruct l1 as [|a' l1], l2 as [|b' l2].
  - simpl in E. now subst.
  - exact (False_ind _ (chunk_no_sep c a b _ Ha E)).
  - exact (False_ind _ (chunk_no_sep c b a _ Hb (eq_sym E))).
  - rewrite !join_cons in E.
    destruct (chunk_sep_inj c a b _ _ Ha Hb E) as [-> E'].
    f_equal. apply IH; try assumption; congruence.
Qed.

Lemma has_char_join c d (l : list string) :
  forallb (fun s => negb (has_char c s)) l = true -> c <> d ->
  has_char c (join (String d EmptyString) l) = false.
Proof.
  intros H Hcd. induction l as [|a l IH]; [reflexivity|].
  simpl in H. apply andb_prop in H as [Ha H]. apply negb_true_iff in Ha.
  destruct l as [|b l]; [exact Ha|].
  rewrite join_cons, has_char_app, Ha. simpl.
  destruct (Ascii.eqb_spec d c) as [->|_]; [congruence|]. now apply IH.
Qed.

Lemma replace_char_join a b (l : list string) :
  forallb (fun s => negb (has_char a s)) l = true ->
  replace_char a b (join (String a EmptyString) l) = join (String b EmptyString) l.
Proof.
  intros H. induction l as [|x l IH]; [reflexivity|].
  simpl in H. apply andb_prop in H as [Hx H]. apply negb_true_iff in Hx.
  destruct l as [|y l]; [now apply replace_char_absent|].
  rewrite !join_cons, replace_char_app, (replace_char_absent _ _ _ Hx).
  simpl. rewrite Ascii.eqb_refl. f_equal. f_equal. now apply IH.
Qed.

(** ** Identity mapper *)

Lemma relative_to_app (vault rel : Path) :
  relative_to (vault ++ rel) vault = Some rel.
Proof.
  induction vault as [|v vault IH]; simpl; [now destruct rel|].
  now rewrite String.eqb_refl.
Qed.

Lemma relative_to_Some (p vault rel : Path) :
  relative_to p vault = Some rel -> p = vault ++ rel.
Proof.
  revert p. induction vault as [|v vault IH]; intros p; simpl.
  - destruct p; simpl; intros [= ->]; reflexivity.
  - destruct p as [|a p]; simpl; [discriminate|].
    destruct (String.eqb_spec a v) as [->|_]; [|discriminate].
    intros H. f_equal. now apply IH.
Qed.

Lemma portable_parts_split fl (rel : Path) :
  forallb (portable_part fl) rel = true ->
  forallb (fun s => negb (has_char backslash s)) rel = true
  /\ forallb (fun s => negb (has_char slash s)) rel = true
  /\ forallb (fun s => negb (String.eqb s ".")) rel = true.
Proof.
  induction rel as [|s rel IH]; simpl; [tauto|].
  intros H. apply andb_prop in H as [Hs H].
  destruct (IH H) as (-> & -> & ->).
  unfold portable_part, wf_part in Hs.
  repeat (apply andb_prop in Hs as [Hs ?]).
  repeat split; apply andb_true_intro; split; auto.
Qed.

(** An identifier never contains a backslash. *)
Lemma doc_id_no_backslash fl (vault p : Path) (i : string) :
  _doc_id_from_path fl vault p = Some i -> has_char backslash i = false.
Proof.
  unfold _doc_id_from_path. destruct (relative_to p vault); [|discriminate].
  intros [= <-]. now apply replace_char_removes.
Qed.

(** On portable parts the identifier is the POSIX spelling of the relative
    path, whatever the host separator. *)
Lemma doc_id_portable fl (vault rel : Path) :
  forallb (portable_part fl) rel = true ->
  _doc_id_from_path fl vault (vault ++ rel) = Some (str_of_rel Posix rel).
Proof.
  intros H. unfold _doc_id_from_path. rewrite relative_to_app. f_equal.
  destruct (portable_parts_split fl rel H) as (Hb & _ & _).
  destruct rel as [|a rel]; [reflexivity|].
  unfold str_of_rel. destruct fl; unfold sep.
  - apply replace_char_absent. now apply has_char_join.
  - now apply replace_char_join.
Qed.

Lemma str_of_rel_posix_inj fl (rp rq : Path) :
  forallb (portable_part fl) rp = true ->
  forallb (portable_part fl) rq = true ->
  str_of_rel Posix rp = str_of_rel Posix rq -> rp = rq.
Proof.
  intros Hp Hq.
  destruct (portable_parts_split fl rp Hp) as (_ & Sp & Dp).
  destruct (portable_parts_split fl rq Hq) as (_ & Sq & Dq).
  assert (dot : forall (l : Path) a,
             forallb (fun s => negb (has_char slash s)) (a :: l) = true ->
             forallb (fun s => negb (String.eqb s ".")) (a :: l) = true ->
             "." <> join (String slash EmptyString) (a :: l)).
  { intros l a Hs Hd E. simpl in Hs, Hd.
    apply andb_prop in Hd as [Hd _]. apply negb_true_iff in Hd.
    destruct l as [|b l].
    - simpl in E. subst a. discriminate.
    - exact (chunk_no_sep slash "." a _ eq_refl E). }
  destruct rp as [|a rp], rq as [|b rq]; unfold str_of_rel, sep; intros E.
  - reflexivity.
  - exfalso. exact (dot _ _ Sq Dq E).
  - exfalso. exact (dot _ _ Sp Dp (eq_sym E)).
  - apply (join_inj slash); try assumption; congruence.
Qed.

(** C1 (amended): over paths below the vault root whose relative parts are
    well formed and contain no backslash, [_doc_id_from_path] yields the
    forward-slash spelling of the relative path under either host
    convention, that identifier has no backslash, and two such paths with
    the same identifier are the same path. *)
Theorem doc_id_injective_on_portable_paths
  (fl : flavour) (vault p q rp rq : Path) :
  relative_to p vault = Some rp ->
  relative_to q vault = Some rq ->
  forallb (portable_part fl) rp = true ->
  forallb (portable_part fl) rq = true ->
  _doc_id_from_path fl vault p = Some (str_of_rel Posix rp)
  /\ has_char backslash (str_of_rel Posix rp) = false
  /\ (_doc_id_from_path fl vault p = _doc_id_from_path fl vault q -> p = q).
Proof.
  intros Rp Rq Hp Hq.
  apply relative_to_Some in Rp, Rq. subst p q.
  pose proof (doc_id_portable fl vault rp Hp) as Ip.
  pose proof (doc_id_portable fl vault rq Hq) as Iq.
  split; [exact Ip|]. split.
  - exact (doc_id_no_backslash _ _ _ _ Ip).
  - rewrite Ip, Iq. intros [= E]. f_equal.
    exact (str_of_rel_posix_inj fl rp rq Hp Hq E).
Qed.

Lemma doc_id_injective_on_portable_paths_witness :
  _doc_id_from_path Windows ["C:"; "vault"] ["C:"; "vault"; "notes"; "a.md"]
    = Some (str_of_rel Posix ["notes"; "a.md"])
  /\ has_char backslash (str_of_rel Posix ["notes"; "a.md"]) = false
  /\ (_doc_id_from_path Windows ["C:"; "vault"] ["C:"; "vault"; "notes"; "a.md"]
      = _doc_id_from_path Windows ["C:"; "vault"] ["C:"; "vault"; "notes"; "b.md"]
      -> ["C:"; "vault"; "notes"; "a.md"] = ["C:"; "vault"; "notes"; "b.md"]).
Proof.
  apply (doc_id_injective_on_portable_paths Windows ["C:"; "vault"]
           ["C:"; "vault"; "notes"; "a.md"] ["C:"; "vault"; "notes"; "b.md"]
           ["notes"; "a.md"] ["notes"; "b.md"]); reflexivity.
Defined.

(** C1 as stated fails on a POSIX host: a file whose name contains a
    backslash and a file one directory deeper are distinct paths below the
    vault root, neither in the reserved directory, with one identifier. *)
Lemma doc_id_collision :
  personal ++ ["a" +:+ String backslash "b.md"] <> personal ++ ["a"; "b.md"]
  /\ forallb (wf_part Posix) ["a" +:+ String backslash "b.md"] = true
  /\ forallb (wf_part Posix) ["a"; "b.md"] = true
  /\ in_parts reserved (personal ++ ["a" +:+ String backslash "b.md"]) = false
  /\ in_parts reserved (personal ++ ["a"; "b.md"]) = false
  /\ _doc_id_from_path Posix personal (personal ++ ["a" +:+ String backslash "b.md"])
     = Some "a/b.md"
  /\ _doc_id_from_path Posix personal (personal ++ ["a"; "b.md"]) = Some "a/b.md".
Proof. repeat split; try reflexivity. discriminate. Qed.

(** ** Classification of notifications *)

Lemma prefix_refl s : String.prefix s s = true.
Proof.
  induction s as [|a s IH]; simpl; [reflexivity|].
  destruct (ascii_dec a a); [exact IH|congruence].
Qed.

Lemma contains_prefix s w : String.prefix w s = true -> contains s w = true.
Proof. intros H. destruct s; cbn [contains]; now rewrite H. Qed.

Lemma contains_tail a s w : contains s w = true -> contains (String a s) w = true.
Proof.
  intros H. cbn [contains]. rewrite H.
  now destruct (String.prefix w (String a s)).
Qed.

Lemma split_on_head c s :
  exists w ws, split_on c s = w :: ws /\ String.prefix w s = true.
Proof.
  induction s as [|a s (w & ws & E & P)]; simpl.
  - now exists EmptyString, [].
  - destruct (Ascii.eqb a c).
    + now exists EmptyString, (split_on c s).
    + rewrite E. exists (String a w), ws. split; [reflexivity|].
      simpl. destruct (ascii_dec a a); [exact P|congruence].
Qed.

(** Every chunk of [s.split(c)] occurs in [s]. *)
Lemma contains_of_split c s w : In w (split_on c s) -> contains s w = true.
Proof.
  revert w. induction s as [|a s IH]; intros w.
  - simpl. intros [<-|[]]. reflexivity.
  - cbn [split_on]. destruct (Ascii.eqb a c).
    + intros [<-|H]; [reflexivity|]. now apply contains_tail, IH.
    + destruct (split_on_head c s) as (w0 & ws & E & P). rewrite E in *.
      intros [<-|H].
      * apply contains_prefix. simpl.
        destruct (ascii_dec a a); [exact P|congruence].
      * apply contains_tail, IH. now right.
Qed.

Lemma in_parts_In name (p : Path) : in_parts name p = true -> In name p.
Proof.
  unfold in_parts. rewrite existsb_exists. intros (x & Hx & E).
  apply String.eqb_eq in E. now subst.
Qed.

(** A part of the parsed directory occurs in the directory string, so the
    substring test of the watch loop covers the reserved directory. *)
Lemma reserved_part_contains s :
  in_parts reserved (parse_posix s) = true -> contains s reserved = true.
Proof.
  intros H. apply in_parts_In in H. unfold parse_posix in H.
  assert (In reserved (split_on slash s)) as Hs.
  { destruct (String.prefix "/" s); [destruct H as [H|H]; [discriminate|]|];
      apply filter_In in H; tauto. }
  now apply contains_of_split in Hs.
Qed.

(** C2 (amended): a notification with no name, with a name not ending in
    [".md"], or whose directory lies under the reserved directory is
    ignored: nothing is dispatched and nothing changes.  A named [".md"]
    notification whose directory string does not mention the reserved name
    dispatches Upsert when it is write-class, Delete Propagation when it is
    delete-class and not write-class, and is ignored when it is neither. *)
Theorem watch_dispatch (env : Env) (ev : Event) :
  (filename ev = "" \/ endswith (filename ev) ".md" = false
   \/ under_reserved ev = true ->
   classify ev = Ignore /\ forall w, handle_event env ev w = (Ok tt, w))
  /\ (filename ev <> "" -> endswith (filename ev) ".md" = true ->
      contains (path ev) reserved = false ->
      (write_class ev = true ->
       classify ev = Upsert (event_file ev)
       /\ handle_event env ev
          = (logger_info (FileChanged (filename ev)) ;;
             _sync_file_to_db env (event_file ev)))
      /\ (write_class ev = false -> delete_class ev = true ->
          classify ev = DeletePropagation (event_file ev)
          /\ handle_event env ev = delete_propagation env (event_file ev))
      /\ (write_class ev = false -> delete_class ev = false ->
          classify ev = Ignore /\ forall w, handle_event env ev w = (Ok tt, w))).
Proof.
  split.
  - intros H.
    assert (classify ev = Ignore) as E.
    { unfold classify. destruct H as [H|[H|H]].
      - now rewrite H.
      - rewrite H. simpl. now rewrite orb_true_r.
      - apply reserved_part_contains in H. unfold reserved in H. rewrite H.
        now destruct (_ || _). }
    split; [exact E|]. intros w. unfold handle_event. now rewrite E.
  - intros Hn Hmd Hres.
    apply String.eqb_neq in Hn.
    assert (forall a, (if String.eqb (filename ev) "" || negb (endswith (filename ev) ".md")
                       then Ignore
                       else if contains (path ev) ".obsidian" then Ignore else a) = a) as F.
    { intros a. rewrite Hn, Hmd. simpl. unfold reserved in Hres. now rewrite Hres. }
    unfold handle_event, classify, write_class, delete_class, event_file.
    rewrite F. repeat split; intros; repeat match goal with H : _ = _ |- _ => rewrite H end;
      reflexivity.
Qed.

Lemma watch_dispatch_witness :
  classify (mkEvent ["IN_DELETE"] "/opt/vaults/personal/notes" "a.md")
  = DeletePropagation ["/"; "opt"; "vaults"; "personal"; "notes"; "a.md"]
  /\ classify (mkEvent ["IN_CLOSE_WRITE"] "/opt/vaults/personal/.obsidian" "a.md")
     = Ignore.
Proof.
  split.
  - apply (proj2 (watch_dispatch quiet_env
             (mkEvent ["IN_DELETE"] "/opt/vaults/personal/notes" "a.md")));
      [discriminate|reflexivity|reflexivity|reflexivity|reflexivity].
  - apply (proj1 (watch_dispatch quiet_env
             (mkEvent ["IN_CLOSE_WRITE"] "/opt/vaults/personal/.obsidian" "a.md"))).
    right. right. reflexivity.
Defined.

(** C2 as stated fails: a modify notification for a tracked file is
    ignored although it has a name, the name ends in [".md"] and its
    directory is not under the reserved directory. *)
Lemma watch_ignores_other_kinds :
  ~ (classify (mkEvent ["IN_MODIFY"] "/opt/vaults/personal/notes" "a.md") = Ignore
     <-> (filename (mkEvent ["IN_MODIFY"] "/opt/vaults/personal/notes" "a.md") = ""
          \/ endswith (filename (mkEvent ["IN_MODIFY"] "/opt/vaults/personal/notes" "a.md"))
               ".md" = false
          \/ under_reserved (mkEvent ["IN_MODIFY"] "/opt/vaults/personal/notes" "a.md")
             = true)).
Proof.
  intros [H _]. destruct (H eq_refl) as [E|[E|E]]; discriminate E.
Qed.

(** The watch loop tests the reserved name as a substring of the directory
    string, while [initial_sync] tests it as a path part: a directory
    whose name merely contains [".obsidian"] is skipped by the first and
    synced by the second. *)
Example watch_substring_filter :
  classify (mkEvent ["IN_CLOSE_WRITE"] "/opt/vaults/personal/x.obsidian" "a.md") = Ignore
  /\ under_reserved (mkEvent ["IN_CLOSE_WRITE"] "/opt/vaults/personal/x.obsidian" "a.md")
     = false
  /\ in_parts reserved (personal ++ ["x.obsidian"; "a.md"]) = false.
Proof. repeat split. Qed.

(** ** Codecs: base64 *)

Lemma b64_table :
  forallb (fun k =>
             match b64val (b64char (Z.of_nat k)) with
             | Some v => (v =? Z.of_nat k) && negb (Ascii.eqb (b64char (Z.of_nat k)) b64_pad)
             | None => false
             end) (seq 0 64) = true.
Proof. vm_compute. reflexivity. Qed.

Lemma b64_sym n :
  0 <= n < 64 ->
  b64val (b64char n) = Some n /\ Ascii.eqb (b64char n) b64_pad = false.
Proof.
  intros Hn. pose proof b64_table as T.
  rewrite forallb_forall in T. specialize (T (Z.to_nat n)).
  rewrite Z2Nat.id in T by lia.
  assert (In (Z.to_nat n) (seq 0 64)) as Hin by (apply in_seq; lia).
  specialize (T Hin). destruct (b64val (b64char n)) as [v|]; [|discriminate].
  apply andb_prop in T as [Ev Ep]. apply Z.eqb_eq in Ev. subst v.
  apply negb_true_iff in Ep. now split.
Qed.

Lemma b64decode_quad c0 c1 c2 c3 rest v0 v1 v2 v3 bs :
  b64val c0 = Some v0 -> b64val c1 = Some v1 -> b64val c2 = Some v2 ->
  b64val c3 = Some v3 ->
  Ascii.eqb c2 b64_pad = false -> Ascii.eqb c3 b64_pad = false ->
  b64decode rest = Some bs ->
  b64decode (String c0 (String c1 (String c2 (String c3 rest))))
  = Some (v0 * 4 + v1 / 16 :: (v1 mod 16) * 16 + v2 / 4 :: (v2 mod 4) * 64 + v3 :: bs).
Proof.
  intros E0 E1 E2 E3 P2 P3 Er. cbn [b64decode].
  now rewrite E0, E1, P2, E2, P3, E3, Er.
Qed.

Ltac zdm := Z.div_mod_to_equations; lia.

Lemma is_byte_range b : is_byte b = true -> 0 <= b < 256.
Proof. unfold is_byte. intros H. apply andb_prop in H as [H1 H2]. lia. Qed.

Lemma b64_roundtrip_bounded (n : nat) (bs : list Z) :
  (length bs <= n)%nat -> forallb is_byte bs = true ->
  b64decode (b64encode bs) = Some bs.
Proof.
  revert bs. induction n as [|n IH]; intros bs Hlen Hb.
  - destruct bs; [reflexivity|simpl in Hlen; lia].
  - destruct bs as [|a [|b [|c rest]]]; [reflexivity| | |].
    + cbn [forallb] in Hb. apply andb_prop in Hb as [Ha _].
      apply is_byte_range in Ha.
      cbn [b64encode b64decode].
      destruct (b64_sym (a / 4)) as [-> _]; [zdm|].
      destruct (b64_sym ((a mod 4) * 16)) as [-> _]; [zdm|].
      rewrite Ascii.eqb_refl. simpl. do 2 f_equal. zdm.
    + cbn [forallb] in Hb. apply andb_prop in Hb as [Ha Hb].
      apply andb_prop in Hb as [Hb _].
      apply is_byte_range in Ha, Hb.
      cbn [b64encode b64decode].
      destruct (b64_sym (a / 4)) as [-> _]; [zdm|].
      destruct (b64_sym ((a mod 4) * 16 + b / 16)) as [-> _]; [zdm|].
      destruct (b64_sym ((b mod 16) * 4)) as [-> ->]; [zdm|].
      rewrite Ascii.eqb_refl. simpl. f_equal. f_equal; [zdm|]. f_equal. zdm.
    + cbn [forallb] in Hb. apply andb_prop in Hb as [Ha Hb].
      apply andb_prop in Hb as [Hb Hc]. apply andb_prop in Hc as [Hc Hr].
      apply is_byte_range in Ha, Hb, Hc.
      cbn [b64encode].
      destruct (b64_sym (a / 4)) as [E0 _]; [zdm|].
      destruct (b64_sym ((a mod 4) * 16 + b / 16)) as [E1 _]; [zdm|].
      destruct (b64_sym ((b mod 16) * 4 + c / 64)) as [E2 P2]; [zdm|].
      destruct (b64_sym (c mod 64)) as [E3 P3]; [zdm|].
      rewrite (b64decode_quad _ _ _ _ _ _ _ _ _ rest E0 E1 E2 E3 P2 P3).
      * f_equal. f_equal; [zdm|]. f_equal; [zdm|]. f_equal. zdm.
      * apply IH; [simpl in Hlen; lia|exact Hr].
Qed.

Lemma b64_roundtrip (bs : list Z) :
  forallb is_byte bs = true -> b64decode (b64encode bs) = Some bs.
Proof. apply (b64_roundtrip_bounded (length bs)). lia. Qed.

(** ** Codecs: UTF-8 and newline translation *)

Ltac ztest :=
  repeat match goal with
    | |- context [?a <=? ?b] =>
        first [ replace (a <=? b) with true by (symmetry; apply Z.leb_le; zdm)
              | replace (a <=? b) with false by (symmetry; apply Z.leb_gt; zdm) ]
    | |- context [?a <? ?b] =>
        first [ replace (a <? b) with true by (symmetry; apply Z.ltb_lt; zdm)
              | replace (a <? b) with false by (symmetry; apply Z.ltb_ge; zdm) ]
    end.

Lemma is_scalar_range c :
  is_scalar c = true -> 0 <= c < 0xD800 \/ 0xE000 <= c <= 0x10FFFF.
Proof. unfold is_scalar. intros H. apply orb_prop in H as [H|H]; apply andb_prop in H; lia. Qed.

Lemma utf8_encode_char_bytes c :
  is_scalar c = true -> forallb is_byte (utf8_encode_char c) = true.
Proof.
  intros H. apply is_scalar_range in H. unfold utf8_encode_char.
  destruct (Z.ltb_spec c 0x80); [|destruct (Z.ltb_spec c 0x800); [|destruct (Z.ltb_spec c 0x10000)]];
    cbn [forallb]; unfold is_byte; ztest; reflexivity.
Qed.

Lemma utf8_decode_encode_char c rest :
  is_scalar c = true ->
  utf8_decode (utf8_encode_char c ++ rest)
  = match utf8_decode rest with Some cs => Some (c :: cs) | None => None end.
Proof.
  intros H. pose proof (is_scalar_range c H) as R. unfold utf8_encode_char.
  destruct (Z.ltb_spec c 0x80); [|destruct (Z.ltb_spec c 0x800); [|destruct (Z.ltb_spec c 0x10000)]];
    cbn [app utf8_decode]; cbv zeta.
  - ztest. reflexivity.
  - replace ((0xC0 + c / 64 - 0xC0) * 64 + (0x80 + c mod 64 - 0x80)) with c by zdm.
    unfold is_cont. ztest. reflexivity.
  - replace ((0xE0 + c / 4096 - 0xE0) * 4096 + (0x80 + (c / 64) mod 64 - 0x80) * 64
             + (0x80 + c mod 64 - 0x80)) with c by zdm.
    rewrite H. unfold is_cont. ztest. reflexivity.
  - replace ((0xF0 + c / 262144 - 0xF0) * 262144 + (0x80 + (c / 4096) mod 64 - 0x80) * 4096
             + (0x80 + (c / 64) mod 64 - 0x80) * 64 + (0x80 + c mod 64 - 0x80)) with c by zdm.
    unfold is_cont. ztest. reflexivity.
Qed.

Lemma str_encode_decode (cs bs : list Z) :
  str_encode cs = Some bs ->
  utf8_decode bs = Some cs /\ forallb is_byte bs = true.
Proof.
  revert bs. induction cs as [|c cs IH]; intros bs; cbn [str_encode].
  - intros [= <-]. now split.
  - destruct (is_scalar c) eqn:Hc; [|discriminate].
    destruct (str_encode cs) as [bs'|]; [|discriminate].
    intros [= <-]. destruct (IH bs' eq_refl) as [D B]. split.
    + now rewrite utf8_decode_encode_char, D.
    + now rewrite forallb_app, utf8_encode_char_bytes, B.
Qed.

Lemma str_encode_total (cs : list Z) :
  forallb is_scalar cs = true -> exists bs, str_encode cs = Some bs.
Proof.
  induction cs as [|c cs IH]; cbn [forallb str_encode]; [now exists []|].
  intros H. apply andb_prop in H as [-> H].
  destruct (IH H) as [bs ->]. eauto.
Qed.

Lemma utf8_decode_scalar_bounded (n : nat) (bs cs : list Z) :
  (length bs <= n)%nat -> utf8_decode bs = Some cs -> forallb is_scalar cs = true.
Proof.
  revert bs cs. induction n as [|n IH]; intros bs cs Hlen.
  - destruct bs; [intros [= <-]; reflexivity|simpl in Hlen; lia].
  - destruct bs as [|b0 r0]; [intros [= <-]; reflexivity|].
    cbn [utf8_decode]. cbn [length] in Hlen.
    destruct ((0 <=? b0) && (b0 <? 0x80)) eqn:T1.
    { destruct (utf8_decode r0) as [cs'|] eqn:D; [|discriminate].
      intros [= <-]. cbn [forallb]. rewrite (IH r0 cs') by (auto; lia).
      unfold is_scalar. apply andb_prop in T1 as [? ?]. ztest. reflexivity. }
    destruct ((0xC0 <=? b0) && (b0 <? 0xE0)) eqn:T2.
    { destruct r0 as [|b1 r1]; [discriminate|]. cbv zeta.
      destruct (is_cont b1 && _) eqn:C; [|discriminate].
      destruct (utf8_decode r1) as [cs'|] eqn:D; [|discriminate].
      intros [= <-]. cbn [forallb]. cbn [length] in Hlen.
      rewrite (IH r1 cs') by (auto; lia).
      apply andb_prop in T2 as [? ?]. apply andb_prop in C as [C ?].
      unfold is_cont in C. apply andb_prop in C as [? ?].
      unfold is_scalar. ztest. reflexivity. }
    destruct ((0xE0 <=? b0) && (b0 <? 0xF0)) eqn:T3.
    { destruct r0 as [|b1 [|b2 r2]]; [discriminate|discriminate|]. cbv zeta.
      destruct (is_cont b1 && _ && _ && _) eqn:C; [|discriminate].
      destruct (utf8_decode r2) as [cs'|] eqn:D; [|discriminate].
      intros [= <-]. cbn [forallb]. cbn [length] in Hlen.
      rewrite (IH r2 cs') by (auto; lia).
      apply andb_prop in C as [_ ->]. reflexivity. }
    destruct ((0xF0 <=? b0) && (b0 <? 0xF8)) eqn:T4; [|discriminate].
    destruct r0 as [|b1 [|b2 [|b3 r3]]]; [discriminate|discriminate|discriminate|].
    cbv zeta.
    destruct (is_cont b1 && _ && _ && _ && _) eqn:C; [|discriminate].
    destruct (utf8_decode r3) as [cs'|] eqn:D; [|discriminate].
    intros [= <-]. cbn [forallb]. cbn [length] in Hlen.
    rewrite (IH r3 cs') by (auto; lia).
    apply andb_prop in C as [C ?]. apply andb_prop in C as [_ ?].
    unfold is_scalar. ztest. rewrite orb_true_r. reflexivity.
Qed.

Lemma utf8_decode_scalar (bs cs : list Z) :
  utf8_decode bs = Some cs -> forallb is_scalar cs = true.
Proof. apply (utf8_decode_scalar_bounded (length bs)). lia. Qed.

Lemma universal_newlines_scalar_bounded (n : nat) (cs : list Z) :
  (length cs <= n)%nat -> forallb is_scalar cs = true ->
  forallb is_scalar (universal_newlines cs) = true.
Proof.
  revert cs. induction n as [|n IH]; intros cs Hlen H.
  - destruct cs; [reflexivity|simpl in Hlen; lia].
  - destruct cs as [|c rest]; [reflexivity|].
    cbn [universal_newlines]. cbn [forallb length] in H, Hlen.
    apply andb_prop in H as [Hc H].
    destruct (c =? 13).
    + cbn [forallb]. change (is_scalar 10) with true. cbn [andb].
      destruct rest as [|d rest']; [reflexivity|].
      cbn [forallb length] in H, Hlen. apply andb_prop in H as [Hd H'].
      destruct (d =? 10); apply IH; cbn [forallb length]; try lia; auto.
      now rewrite Hd.
    + cbn [forallb]. rewrite Hc. apply IH; [lia|exact H].
Qed.

Lemma universal_newlines_scalar (cs : list Z) :
  forallb is_scalar cs = true -> forallb is_scalar (universal_newlines cs) = true.
Proof. apply (universal_newlines_scalar_bounded (length cs)). lia. Qed.

Lemma utf8_encode_char_length c : (1 <= length (utf8_encode_char c))%nat.
Proof.
  unfold utf8_encode_char.
  destruct (c <? 0x80), (c <? 0x800), (c <? 0x10000); simpl; lia.
Qed.

(** An encoded text has at least as many bytes as code points, and as
    many when it is ASCII. *)
Lemma str_encode_length (cs bs : list Z) :
  str_encode cs = Some bs ->
  (length cs <= length bs)%nat
  /\ (forallb (fun c => c <? 0x80) cs = true -> length bs = length cs).
Proof.
  revert bs. induction cs as [|c cs IH]; intros bs; cbn [str_encode].
  - intros [= <-]. now split.
  - destruct (is_scalar c); [|discriminate].
    destruct (str_encode cs) as [bs'|]; [|discriminate].
    intros [= <-]. destruct (IH bs' eq_refl) as [L A].
    rewrite length_app. pose proof (utf8_encode_char_length c). cbn [length forallb].
    split; [lia|]. intros H'. apply andb_prop in H' as [Hc H'].
    unfold utf8_encode_char. rewrite Hc. cbn [length]. rewrite (A H'). lia.
Qed.

(** ** Frame lemmas *)

Section Frame.
Context {B : Type} (proj : World -> B).
Hypothesis proj_log : forall r w, proj (add_log r w) = proj w.
Hypothesis proj_call : forall c w, proj (add_call c w) = proj w.
Hypothesis proj_tick : forall w, proj (tick_clock w) = proj w.
Hypothesis proj_db : forall f w, proj (set_db f w) = proj w.

Lemma preserves_ret {A} (a : A) : preserves proj (mret a).
Proof. intros w. reflexivity. Qed.

Lemma preserves_raise {A} (e : exn) : preserves proj (@raise A e).
Proof. intros w. reflexivity. Qed.

Lemma preserves_gets {A} (f : World -> A) : preserves proj (gets f).
Proof. intros w. reflexivity. Qed.

Lemma preserves_of_option {A} (o : option A) (e : exn) :
  preserves proj (of_option o e).
Proof. intros w. now destruct o. Qed.

Lemma preserves_modify (f : World -> World) :
  (forall w, proj (f w) = proj w) -> preserves proj (modify f).
Proof. intros H w. apply H. Qed.

Lemma preserves_bind {A C} (m : M A) (k : A -> M C) :
  preserves proj m -> (forall a, preserves proj (k a)) ->
  preserves proj (m ≫= k).
Proof.
  intros Hm Hk w. unfold mbind, M_bind, bind.
  specialize (Hm w). destruct (m w) as [[a|e] w']; simpl in *.
  - now rewrite Hk.
  - exact Hm.
Qed.

Lemma preserves_try_except {A} (body : M A) catches handler :
  preserves proj body -> (forall e, preserves proj (handler e)) ->
  preserves proj (try_except body catches handler).
Proof.
  intros Hb Hh w. unfold try_except.
  specialize (Hb w). destruct (body w) as [[a|e] w']; simpl in *; [exact Hb|].
  destruct (catches e); [now rewrite Hh|exact Hb].
Qed.

Lemma preserves_try_finally {A} (body : M A) (fin : M unit) :
  preserves proj body -> preserves proj fin ->
  preserves proj (try_finally body fin).
Proof.
  intros Hb Hf w. unfold try_finally.
  specialize (Hb w). destruct (body w) as [r w']. specialize (Hf w').
  destruct (fin w') as [[[]|e] w'']; simpl in *; congruence.
Qed.

Lemma preserves_logger_info m : preserves proj (logger_info m).
Proof. apply preserves_modify. intros w. apply proj_log. Qed.

Lemma preserves_logger_error m : preserves proj (logger_error m).
Proof. apply preserves_modify. intros w. apply proj_log. Qed.

Lemma preserves_time_ms env : preserves proj (time_ms env).
Proof. intros w. apply proj_tick. Qed.

Lemma preserves_store_call env c : preserves proj (store_call env c).
Proof. intros w. unfold store_call. destruct (faults env _); apply proj_call. Qed.

Lemma preserves_read_text p : preserves proj (read_text p).
Proof.
  intros w. unfold read_text, mbind, M_bind, bind, gets. simpl.
  destruct (fs_lookup (fs w) p) as [[bytes|es]|]; try reflexivity.
  now destruct (utf8_decode bytes).
Qed.

Ltac frame_step :=
  first [ apply preserves_ret | apply preserves_raise | apply preserves_gets
        | apply preserves_of_option | apply preserves_logger_info
        | apply preserves_logger_error | apply preserves_time_ms
        | apply preserves_store_call | apply preserves_read_text
        | apply preserves_bind | apply preserves_try_except
        | apply preserves_try_finally
        | apply preserves_modify; intros; apply proj_db
        | match goal with
          | |- preserves _ (if ?c then _ else _) => destruct c
          | |- preserves _ (match ?x with _ => _ end) => destruct x
          | |- forall _, _ => intros
          end ].

Lemma preserves_db_getitem env id : preserves proj (db_getitem env id).
Proof. unfold db_getitem. repeat frame_step. Qed.

Lemma preserves_db_save env doc : preserves proj (db_save env doc).
Proof. unfold db_save. repeat frame_step. Qed.

Lemma preserves_db_delete env doc : preserves proj (db_delete env doc).
Proof. unfold db_delete. repeat frame_step. Qed.

Lemma preserves_delete_propagation env p :
  preserves proj (delete_propagation env p).
Proof.
  unfold delete_propagation, doc_id_of.
  repeat first [ apply preserves_db_getitem | apply preserves_db_delete | frame_step ].
Qed.

Lemma preserves_upsert_steps env p id : preserves proj (upsert_steps env p id).
Proof.
  unfold upsert_steps.
  repeat first [ apply preserves_db_getitem | apply preserves_db_save | frame_step ].
Qed.

Hypothesis proj_syncing : forall f w, proj (set_syncing f w) = proj w.

Lemma preserves_sync_file env p : preserves proj (_sync_file_to_db env p).
Proof.
  unfold _sync_file_to_db, doc_id_of.
  repeat first [ apply preserves_upsert_steps
               | apply preserves_modify; intros; apply proj_syncing
               | frame_step ].
Qed.

Lemma preserves_sync_each env files count :
  preserves proj (sync_each env files count).
Proof.
  revert count. induction files as [|f files IH]; intros count; cbn [sync_each].
  - apply preserves_ret.
  - destruct (in_parts reserved f); [apply IH|].
    apply preserves_bind; [apply preserves_sync_file|intros; apply IH].
Qed.

Lemma preserves_initial_sync env : preserves proj (initial_sync env).
Proof.
  unfold initial_sync.
  repeat first [ apply preserves_sync_each | frame_step ].
Qed.

Lemma preserves_handle_event env ev : preserves proj (handle_event env ev).
Proof.
  unfold handle_event.
  repeat first [ apply preserves_sync_file | apply preserves_delete_propagation
               | frame_step ].
Qed.

Lemma preserves_watch_loop env events : preserves proj (watch_loop env events).
Proof.
  induction events as [|ev events IH]; cbn [watch_loop].
  - apply preserves_ret.
  - apply preserves_bind; [apply preserves_handle_event|intros; apply IH].
Qed.

Lemma preserves_watch_filesystem env events :
  preserves proj (watch_filesystem env events).
Proof.
  unfold watch_filesystem.
  repeat first [ apply preserves_watch_loop | frame_step ].
Qed.

Lemma preserves_run env events : preserves proj (run env events).
Proof.
  unfold run, sys_exit.
  repeat first [ apply preserves_watch_filesystem | apply preserves_initial_sync
               | frame_step ].
Qed.

Lemma preserves_main env events : preserves proj (main env events).
Proof.
  unfold main, sys_exit.
  repeat first [ apply preserves_run | frame_step ].
Qed.
End Frame.

(** ** Stepping through the monad *)

Lemma bind_ok {A C} (m : M A) (k : A -> M C) w a w' :
  m w = (Ok a, w') -> (m ≫= k) w = k a w'.
Proof. intros H. unfold mbind, M_bind, bind. now rewrite H. Qed.

Lemma bind_raise {A C} (m : M A) (k : A -> M C) w e w' :
  m w = (Raise e, w') -> (m ≫= k) w = (Raise e, w').
Proof. intros H. unfold mbind, M_bind, bind. now rewrite H. Qed.

Lemma bind_gets {A C} (f : World -> A) (k : A -> M C) w :
  (gets f ≫= k) w = k (f w) w.
Proof. reflexivity. Qed.

Lemma bind_ret {A C} (a : A) (k : A -> M C) w : (ret a ≫= k) w = k a w.
Proof. reflexivity. Qed.

Lemma bind_modify {C} (f : World -> World) (k : unit -> M C) w :
  (modify f ≫= k) w = k tt (f w).
Proof. reflexivity. Qed.

Lemma length_snoc {A} (l : list A) (x : A) : length (l ++ [x]) = S (length l).
Proof. rewrite length_app. simpl. lia. Qed.

Lemma mark_unmark (s : gset string) (id : string) :
  id ∉ s -> (s ∪ {[id]}) ∖ {[id]} = s.
Proof.
  intros H. apply set_eq. intros x.
  rewrite elem_of_difference, elem_of_union, elem_of_singleton. split.
  - intros [[Hx|Hx] Hne]; [exact Hx|contradiction].
  - intros Hx. split; [now left|]. intros ->. contradiction.
Qed.

(** ** The store client *)

Lemma store_call_ok env c w :
  faults env (length (calls w)) = None ->
  store_call env c w = (Ok tt, add_call c w).
Proof. intros H. unfold store_call. now rewrite H. Qed.

Lemma store_call_fault env c w e :
  faults env (length (calls w)) = Some e ->
  store_call env c w = (Raise e, add_call c w).
Proof. intros H. unfold store_call. now rewrite H. Qed.

Lemma db_getitem_found env id w fields :
  faults env (length (calls w)) = None -> db w !! id = Some fields ->
  db_getitem env id w = (Ok (mkDoc id fields), add_call (Get id) w).
Proof.
  intros F D. unfold db_getitem.
  rewrite (bind_ok _ _ _ _ _ (store_call_ok _ _ _ F)), bind_gets.
  cbn [db add_call]. now rewrite D.
Qed.

Lemma db_getitem_missing env id w :
  faults env (length (calls w)) = None -> db w !! id = None ->
  db_getitem env id w = (Raise ResourceNotFound, add_call (Get id) w).
Proof.
  intros F D. unfold db_getitem.
  rewrite (bind_ok _ _ _ _ _ (store_call_ok _ _ _ F)), bind_gets.
  cbn [db add_call]. now rewrite D.
Qed.

Lemma db_getitem_fault env id w e :
  faults env (length (calls w)) = Some e ->
  db_getitem env id w = (Raise e, add_call (Get id) w).
Proof.
  intros F. unfold db_getitem.
  now rewrite (bind_raise _ _ _ _ _ (store_call_fault _ _ _ _ F)).
Qed.

Lemma get_or_create_ok env id w :
  faults env (length (calls w)) = None ->
  try_except (db_getitem env id) is_ResourceNotFound
    (fun _ => mret (mkDoc id ∅)) w
  = (Ok (mkDoc id (default ∅ (db w !! id))), add_call (Get id) w).
Proof.
  intros F. unfold try_except. destruct (db w !! id) as [fields|] eqn:D.
  - now rewrite (db_getitem_found _ _ _ _ F D).
  - now rewrite (db_getitem_missing _ _ _ F D).
Qed.

Lemma db_save_ok env doc w :
  faults env (length (calls w)) = None ->
  db_save env doc w
  = (Ok tt, set_db (fun m => <[_id doc := body doc]> m) (add_call (Save doc) w)).
Proof.
  intros F. unfold db_save.
  now rewrite (bind_ok _ _ _ _ _ (store_call_ok _ _ _ F)).
Qed.

(** ** Upsert *)

Lemma read_text_ok p w bytes cs :
  fs_lookup (fs w) p = Some (File bytes) -> utf8_decode bytes = Some cs ->
  read_text p w = (Ok (universal_newlines cs), w).
Proof. intros L D. unfold read_text. rewrite bind_gets, L, D. reflexivity. Qed.

Lemma read_text_undecodable p w bytes :
  fs_lookup (fs w) p = Some (File bytes) -> utf8_decode bytes = None ->
  read_text p w = (Raise UnicodeDecodeError, w).
Proof. intros L D. unfold read_text. rewrite bind_gets, L, D. reflexivity. Qed.

Lemma is_file_exists root p :
  path_is_file root p = true -> path_exists root p = true.
Proof. unfold path_is_file, path_exists. now destruct (fs_lookup root p). Qed.

Lemma lookup_is_file root p bytes :
  fs_lookup root p = Some (File bytes) -> path_is_file root p = true.
Proof. unfold path_is_file. now intros ->. Qed.

(** Past the existence and busy checks, Upsert is its guarded block. *)
Lemma sync_file_past_checks env p w id :
  path_is_file (fs w) p = true ->
  _doc_id_from_path Posix (vault_path env) p = Some id ->
  id ∉ _syncing w ->
  _sync_file_to_db env p w
  = try_finally
      (try_except
         (modify (set_syncing (fun s => s ∪ {[id]})) ;; upsert_steps env p id)
         is_Exception
         (fun e => logger_error (FailedToSync id e)))
      (modify (set_syncing (fun s => s ∖ {[id]}))) w.
Proof.
  intros F I B. unfold _sync_file_to_db.
  rewrite (bind_gets fs), F, (is_file_exists _ _ F). cbn [negb orb].
  unfold doc_id_of. rewrite I. cbn [of_option].
  rewrite (bind_ret id), (bind_gets _syncing). now rewrite bool_decide_eq_false_2.
Qed.

Lemma upsert_steps_ok env p id w bytes cs encoded :
  fs_lookup (fs w) p = Some (File bytes) ->
  utf8_decode bytes = Some cs ->
  str_encode (universal_newlines cs) = Some encoded ->
  faults env (length (calls w)) = None ->
  faults env (S (length (calls w))) = None ->
  upsert_steps env p id w
  = (Ok tt,
     mkWorld (fs w)
       (<[id := upsert_fields (default ∅ (db w !! id)) (universal_newlines cs) encoded
                  (clock env (clock_reads w))]> (db w))
       (_syncing w)
       (log w ++ [(INFO, Synced id)])
       (calls w ++ [Get id;
                    Save (mkDoc id (upsert_fields (default ∅ (db w !! id))
                                      (universal_newlines cs) encoded
                                      (clock env (clock_reads w))))])
       (S (clock_reads w))).
Proof.
  intros L D E F1 F2. unfold upsert_steps.
  rewrite (bind_ok _ _ _ _ _ (read_text_ok _ _ _ _ L D)).
  rewrite (bind_ok _ _ _ _ _ (get_or_create_ok _ _ _ F1)).
  rewrite E. cbn [of_option]. rewrite (bind_ret encoded). cbv beta zeta.
  unfold time_ms at 1.
  erewrite bind_ok; [|reflexivity].
  erewrite bind_ok; [|apply db_save_ok; cbn [calls tick_clock add_call]; now rewrite length_snoc].
  unfold logger_info, modify, add_log, set_db, tick_clock, add_call, doc_set, upsert_fields.
  cbn. rewrite <- app_assoc. reflexivity.
Qed.

(** ** Upsert, Delete Propagation and the watch loop *)

Lemma read_text_inv p w content w' :
  read_text p w = (Ok content, w') ->
  w' = w /\ exists bytes cs,
    fs_lookup (fs w) p = Some (File bytes) /\ utf8_decode bytes = Some cs
    /\ content = universal_newlines cs.
Proof.
  unfold read_text. rewrite (bind_gets fs).
  destruct (fs_lookup (fs w) p) as [[bytes|es]|]; try discriminate.
  destruct (utf8_decode bytes) as [cs|] eqn:D; [|discriminate].
  intros [= <- <-]. split; [reflexivity|]. now exists bytes, cs.
Qed.

Lemma read_text_encodable p w content w' :
  read_text p w = (Ok content, w') -> exists encoded, str_encode content = Some encoded.
Proof.
  intros H. apply read_text_inv in H as (_ & bytes & cs & _ & D & ->).
  apply str_encode_total, universal_newlines_scalar. exact (utf8_decode_scalar _ _ D).
Qed.

(** A successful Upsert, in one step. *)
Lemma upsert_ok env p w id content encoded :
  read_text p w = (Ok content, w) ->
  str_encode content = Some encoded ->
  _doc_id_from_path Posix (vault_path env) p = Some id ->
  id ∉ _syncing w ->
  faults env (length (calls w)) = None ->
  faults env (S (length (calls w))) = None ->
  _sync_file_to_db env p w = (Ok tt, synced_world env id content encoded w).
Proof.
  intros R E I B F1 F2.
  apply read_text_inv in R as (_ & bytes & cs & L & D & ->).
  rewrite (sync_file_past_checks env p w id (lookup_is_file _ _ _ L) I B).
  unfold try_finally, try_except. rewrite bind_modify.
  erewrite upsert_steps_ok; [|exact L|exact D|exact E|exact F1|exact F2].
  unfold synced_world, modify, set_syncing. cbn.
  now rewrite (mark_unmark _ _ B).
Qed.

Lemma try_except_modify {A} (f : World -> World) (steps : M A) catches handler w :
  try_except (modify f ;; steps) catches handler w
  = try_except steps catches handler (f w).
Proof. reflexivity. Qed.

(** C6: while the identifier is marked busy, Upsert returns at once and
    leaves every part of the state as it was: no store call is recorded,
    the marker set and the log are untouched. *)
Theorem upsert_busy_is_noop (env : Env) (p : Path) (w : World) (id : string) :
  _doc_id_from_path Posix (vault_path env) p = Some id ->
  id ∈ _syncing w ->
  _sync_file_to_db env p w = (Ok tt, w).
Proof.
  intros I B. unfold _sync_file_to_db. rewrite (bind_gets fs).
  destruct (_ || _); [reflexivity|].
  unfold doc_id_of. rewrite I. cbn [of_option].
  rewrite (bind_ret id), (bind_gets _syncing). now rewrite bool_decide_eq_true_2.
Qed.

(** C8: an Upsert that passes the busy check returns with the
    identifier's mark absent, and with the marker set exactly as it was
    before the call, whatever the file, the store and the clock did. *)
Theorem upsert_clears_busy_mark (env : Env) (p : Path) (w : World) (id : string) :
  _doc_id_from_path Posix (vault_path env) p = Some id ->
  id ∉ _syncing w ->
  (id ∉ _syncing (snd (_sync_file_to_db env p w)))
  /\ _syncing (snd (_sync_file_to_db env p w)) = _syncing w.
Proof.
  intros I B.
  assert (_syncing (snd (_sync_file_to_db env p w)) = _syncing w) as E.
  { destruct (path_is_file (fs w) p) eqn:F.
    - rewrite (sync_file_past_checks env p w id F I B).
      unfold try_finally. rewrite try_except_modify.
      pose proof (preserves_try_except _syncing (upsert_steps env p id) is_Exception
                    (fun e => logger_error (FailedToSync id e))
                    (preserves_upsert_steps _syncing
                       (fun _ _ => eq_refl) (fun _ _ => eq_refl) (fun _ => eq_refl)
                       (fun _ _ => eq_refl) env p id)
                    (fun e => preserves_logger_error _syncing (fun _ _ => eq_refl) _)
                    (set_syncing (fun s => s ∪ {[id]}) w)) as P.
      destruct (try_except _ _ _ _) as [r w']. cbn in P |- *.
      rewrite P. now apply mark_unmark.
    - unfold _sync_file_to_db. rewrite (bind_gets fs), F. cbn [negb].
      now rewrite orb_true_r. }
  split; [now rewrite E|exact E].
Qed.

(** C9: when the file's bytes do not decode as UTF-8, Upsert returns
    normally having only appended one error record to the log: the store
    receives no call and keeps its documents, the marker set is as before;
    the watch loop goes on to the next notification and the bulk scan to
    the next file. *)
Theorem upsert_undecodable_is_logged
  (env : Env) (p : Path) (w : World) (id : string) (bytes : list Z) :
  fs_lookup (fs w) p = Some (File bytes) ->
  utf8_decode bytes = None ->
  _doc_id_from_path Posix (vault_path env) p = Some id ->
  id ∉ _syncing w ->
  _sync_file_to_db env p w
  = (Ok tt, add_log (ERROR, FailedToSync id UnicodeDecodeError) w)
  /\ (forall ev rest, classify ev = Upsert p ->
      watch_loop env (ev :: rest) w
      = watch_loop env rest
          (add_log (ERROR, FailedToSync id UnicodeDecodeError)
             (add_log (INFO, FileChanged (filename ev)) w)))
  /\ (forall rest count, in_parts reserved p = false ->
      sync_each env (p :: rest) count w
      = sync_each env rest (count + 1)
          (add_log (ERROR, FailedToSync id UnicodeDecodeError) w)).
Proof.
  intros L D I B.
  assert (forall w0, fs w0 = fs w -> _syncing w0 = _syncing w ->
            _sync_file_to_db env p w0
            = (Ok tt, add_log (ERROR, FailedToSync id UnicodeDecodeError) w0)) as S.
  { intros w0 Ef Es. rewrite <- Ef in L. rewrite <- Es in B.
    rewrite (sync_file_past_checks env p w0 id (lookup_is_file _ _ _ L) I B).
    unfold try_finally, try_except. rewrite bind_modify.
    unfold upsert_steps.
    erewrite bind_raise; [|apply (read_text_undecodable p _ bytes); [exact L|exact D]].
    cbn. unfold add_log, set_syncing. cbn. now rewrite (mark_unmark _ _ B). }
  split; [now apply S|]. split.
  - intros ev rest C. cbn [watch_loop]. unfold handle_event. rewrite C.
    erewrite bind_ok; [reflexivity|].
    unfold logger_info. rewrite bind_modify. now apply S.
  - intros rest count R. cbn [sync_each]. rewrite R.
    erewrite bind_ok; [reflexivity|]. now apply S.
Qed.

(** C7: when the store answers and holds no document under the path's
    identifier, Delete Propagation returns normally after the one lookup:
    no delete is issued, nothing is logged, the store is unchanged. *)
Theorem delete_missing_is_success (env : Env) (p : Path) (w : World) (id : string) :
  _doc_id_from_path Posix (vault_path env) p = Some id ->
  faults env (length (calls w)) = None ->
  db w !! id = None ->
  delete_propagation env p w = (Ok tt, add_call (Get id) w).
Proof.
  intros I F D. unfold delete_propagation, try_except, doc_id_of.
  rewrite I. cbn [of_option]. rewrite (bind_ret id).
  erewrite bind_raise; [|now apply db_getitem_missing]. reflexivity.
Qed.

(** A store error other than not-found in the delete branch leaves the
    watch loop: the remaining notifications are not handled. *)
Lemma delete_store_error_escapes env ev rest p w id e :
  classify ev = DeletePropagation p ->
  _doc_id_from_path Posix (vault_path env) p = Some id ->
  faults env (length (calls w)) = Some e ->
  is_ResourceNotFound e = false ->
  watch_loop env (ev :: rest) w = (Raise e, add_call (Get id) w).
Proof.
  intros C I F N. cbn [watch_loop]. unfold handle_event. rewrite C.
  apply bind_raise.
  unfold delete_propagation, try_except, doc_id_of.
  rewrite I. cbn [of_option]. rewrite (bind_ret id).
  rewrite (bind_raise _ _ _ _ _ (db_getitem_fault env id w e F)). now rewrite N.
Qed.

(** C4 (the code departs from it): the store fails with a server error on
    the lookup of the delete branch; the error leaves the watch loop, the
    process logs it as fatal and exits with status 1, and the write
    notification that follows is never handled.  Upsert, next to it,
    logs such an error and carries on. *)
Theorem delete_store_error_is_fatal :
  status_of (fst (main flaky_env delete_then_write (world_of b_only))) = Exited 1
  /\ List.map fst (log (snd (main flaky_env delete_then_write (world_of b_only))))
     = [INFO; INFO; INFO; INFO; INFO; ERROR]
  /\ last (log (snd (main flaky_env delete_then_write (world_of b_only))))
     = Some (ERROR, FatalError ServerError)
  /\ length (calls (snd (main flaky_env delete_then_write (world_of b_only)))) = 3%nat
  /\ last (calls (snd (main flaky_env delete_then_write (world_of b_only))))
     = Some (Get "notes/a.md")
  /\ status_of (fst (main quiet_env delete_then_write (world_of b_only))) = Watching
  /\ length (calls (snd (main quiet_env delete_then_write (world_of b_only)))) = 5%nat.
Proof. vm_compute. repeat split. Qed.

(** C10: no operation of the engine changes the local tree. *)
Theorem local_tree_is_only_read
  (env : Env) (events : list Event) (p : Path) (w : World) :
  fs (snd (initial_sync env w)) = fs w
  /\ fs (snd (_sync_file_to_db env p w)) = fs w
  /\ fs (snd (delete_propagation env p w)) = fs w
  /\ fs (snd (watch_filesystem env events w)) = fs w
  /\ fs (snd (run env events w)) = fs w
  /\ fs (snd (main env events w)) = fs w.
Proof.
  repeat split;
    [ apply (preserves_initial_sync fs) | apply (preserves_sync_file fs)
    | apply (preserves_delete_propagation fs) | apply (preserves_watch_filesystem fs)
    | apply (preserves_run fs) | apply (preserves_main fs) ];
    intros; reflexivity.
Qed.

Lemma upsert_fields_lookup old content encoded now (k : string) :
  upsert_fields old content encoded now !! k
  = if decide (k = "type") then Some (VStr "plain")
    else if decide (k = "size") then Some (VInt (Z.of_nat (length content)))
    else if decide (k = "mtime") then Some (VInt now)
    else if decide (k = "data") then Some (VStr (b64encode encoded))
    else old !! k.
Proof.
  unfold upsert_fields. rewrite !lookup_insert.
  repeat case_decide; subst; congruence.
Qed.

Lemma read_text_same_tree p w w1 content :
  fs w1 = fs w -> read_text p w = (Ok content, w) ->
  read_text p w1 = (Ok content, w1).
Proof.
  intros E R. apply read_text_inv in R as (_ & bytes & cs & L & D & ->).
  rewrite <- E in L. exact (read_text_ok p w1 bytes cs L D).
Qed.

(** C3 (amended): after a successful Upsert the stored [size] is the
    number of code points of the text read from the file; base64-decoding
    the stored [data] gives the UTF-8 bytes of that text and decoding
    those gives the text back exactly.  The byte count is never below
    [size] and equals it when the text is ASCII. *)
Theorem upsert_stores_text_and_its_length
  (env : Env) (p : Path) (w : World) (id : string) (content : list Z) :
  read_text p w = (Ok content, w) ->
  _doc_id_from_path Posix (vault_path env) p = Some id ->
  id ∉ _syncing w ->
  faults env (length (calls w)) = None ->
  faults env (S (length (calls w))) = None ->
  exists encoded fields,
    str_encode content = Some encoded
    /\ fst (_sync_file_to_db env p w) = Ok tt
    /\ db (snd (_sync_file_to_db env p w)) !! id = Some fields
    /\ fields !! "size" = Some (VInt (Z.of_nat (length content)))
    /\ fields !! "data" = Some (VStr (b64encode encoded))
    /\ b64decode (b64encode encoded) = Some encoded
    /\ decode_payload (b64encode encoded) = Some content
    /\ (length content <= length encoded)%nat
    /\ (forallb (fun c => c <? 0x80) content = true -> length encoded = length content).
Proof.
  intros R I B F1 F2.
  destruct (read_text_encodable _ _ _ _ R) as [encoded E].
  destruct (str_encode_decode _ _ E) as [D Hb].
  destruct (str_encode_length _ _ E) as [Hl Ha].
  exists encoded. eexists. split; [exact E|].
  rewrite (upsert_ok env p w id content encoded R E I B F1 F2).
  split; [reflexivity|]. split; [apply lookup_insert_eq|].
  split; [now rewrite upsert_fields_lookup|].
  split; [now rewrite upsert_fields_lookup|].
  pose proof (b64_roundtrip encoded Hb) as Rt.
  split; [exact Rt|]. split; [|now split].
  unfold decode_payload. now rewrite Rt.
Qed.

(** C5: two Upserts in a row of the same file, both answered by the store,
    leave documents that agree on every field except possibly [mtime];
    in particular [data] and [size] are present and equal. *)
Theorem upsert_twice_same_payload
  (env : Env) (p : Path) (w : World) (id : string) (content : list Z) :
  read_text p w = (Ok content, w) ->
  _doc_id_from_path Posix (vault_path env) p = Some id ->
  id ∉ _syncing w ->
  (forall k, (k < 4)%nat -> faults env (length (calls w) + k) = None) ->
  let r1 := _sync_file_to_db env p w in
  let r2 := _sync_file_to_db env p (snd r1) in
  fst r1 = Ok tt /\ fst r2 = Ok tt
  /\ exists d1 d2,
      db (snd r1) !! id = Some d1 /\ db (snd r2) !! id = Some d2
      /\ is_Some (d1 !! "data") /\ is_Some (d1 !! "size")
      /\ d2 !! "data" = d1 !! "data" /\ d2 !! "size" = d1 !! "size"
      /\ forall k : string, k <> "mtime" -> d2 !! k = d1 !! k.
Proof.
  intros R I B F r1 r2.
  destruct (read_text_encodable _ _ _ _ R) as [encoded E].
  assert (r1 = (Ok tt, synced_world env id content encoded w)) as E1.
  { apply upsert_ok; auto.
    - rewrite <- (F 0%nat) by lia. f_equal. lia.
    - rewrite <- (F 1%nat) by lia. f_equal. lia. }
  set (w1 := synced_world env id content encoded w) in *.
  assert (r2 = (Ok tt, synced_world env id content encoded w1)) as E2.
  { subst r2. rewrite E1. cbn [snd]. apply upsert_ok; auto.
    - now apply (read_text_same_tree p w w1).
    - rewrite <- (F 2%nat) by lia. f_equal. subst w1. unfold synced_world. cbn [calls].
      rewrite length_app. cbn [length]. lia.
    - rewrite <- (F 3%nat) by lia. f_equal. subst w1. unfold synced_world. cbn [calls].
      rewrite length_app. cbn [length]. lia. }
  rewrite E1, E2. cbn [fst snd]. split; [reflexivity|]. split; [reflexivity|].
  set (d1 := upsert_fields (default ∅ (db w !! id)) content encoded
               (clock env (clock_reads w))).
  assert (db w1 !! id = Some d1) as L1 by apply lookup_insert_eq.
  exists d1, (upsert_fields d1 content encoded (clock env (clock_reads w1))).
  split; [exact L1|]. split.
  { unfold synced_world at 1. cbn [db]. rewrite L1. apply lookup_insert_eq. }
  subst d1. rewrite !upsert_fields_lookup.
  split; [eexists; reflexivity|]. split; [eexists; reflexivity|].
  split; [reflexivity|]. split; [reflexivity|].
  intros k Hk. rewrite !upsert_fields_lookup.
  repeat case_decide; congruence.
Qed.

(** C3 as stated fails: for a note holding the two bytes of U+00E9 the
    stored [size] is 1 while the decoded payload is two bytes long. *)
Lemma size_counts_code_points :
  fst (_sync_file_to_db quiet_env (personal ++ ["notes"; "e.md"]) (world_of accent_tree))
  = Ok tt
  /\ (db (snd (_sync_file_to_db quiet_env (personal ++ ["notes"; "e.md"])
                 (world_of accent_tree))) !! "notes/e.md")
       ≫= (fun fields => fields !! "size") = Some (VInt 1)
  /\ (db (snd (_sync_file_to_db quiet_env (personal ++ ["notes"; "e.md"])
                 (world_of accent_tree))) !! "notes/e.md")
       ≫= (fun fields => fields !! "data") = Some (VStr "w6k=")
  /\ b64decode "w6k=" = Some [195; 169]
  /\ decode_payload "w6k=" = Some [233]
  /\ Z.of_nat (length [195; 169]) <> 1.
Proof. vm_compute. repeat split. discriminate. Qed.

Lemma upsert_busy_is_noop_witness :
  _sync_file_to_db quiet_env (personal ++ ["notes"; "a.md"]) busy_world
  = (Ok tt, busy_world).
Proof.
  apply (upsert_busy_is_noop quiet_env (personal ++ ["notes"; "a.md"]) busy_world
           "notes/a.md").
  - reflexivity.
  - compute_done.
Defined.

Lemma upsert_clears_busy_mark_witness :
  ("notes/a.md" ∉ _syncing (snd (_sync_file_to_db quiet_env
                                     (personal ++ ["notes"; "a.md"])
                                     (world_of hello_tree))))
  /\ _syncing (snd (_sync_file_to_db quiet_env (personal ++ ["notes"; "a.md"])
                      (world_of hello_tree)))
     = _syncing (world_of hello_tree).
Proof.
  apply (upsert_clears_busy_mark quiet_env (personal ++ ["notes"; "a.md"])
           (world_of hello_tree) "notes/a.md").
  - reflexivity.
  - compute_done.
Defined.

Lemma upsert_undecodable_is_logged_witness :
  _sync_file_to_db quiet_env (personal ++ ["notes"; "bad.md"]) (world_of bad_tree)
  = (Ok tt, add_log (ERROR, FailedToSync "notes/bad.md" UnicodeDecodeError)
              (world_of bad_tree)).
Proof.
  apply (upsert_undecodable_is_logged quiet_env (personal ++ ["notes"; "bad.md"])
           (world_of bad_tree) "notes/bad.md" [255; 254]).
  - reflexivity.
  - reflexivity.
  - reflexivity.
  - compute_done.
Defined.

Lemma delete_missing_is_success_witness :
  delete_propagation quiet_env (personal ++ ["notes"; "gone.md"]) (world_of hello_tree)
  = (Ok tt, add_call (Get "notes/gone.md") (world_of hello_tree)).
Proof.
  apply (delete_missing_is_success quiet_env (personal ++ ["notes"; "gone.md"])
           (world_of hello_tree) "notes/gone.md"); reflexivity.
Defined.

Lemma upsert_stores_text_and_its_length_witness :
  exists encoded fields,
    str_encode [104; 101; 108; 108; 111] = Some encoded
    /\ fst (_sync_file_to_db quiet_env (personal ++ ["notes"; "a.md"])
              (world_of hello_tree)) = Ok tt
    /\ db (snd (_sync_file_to_db quiet_env (personal ++ ["notes"; "a.md"])
                  (world_of hello_tree))) !! "notes/a.md" = Some fields
    /\ fields !! "size" = Some (VInt (Z.of_nat (length [104; 101; 108; 108; 111])))
    /\ fields !! "data" = Some (VStr (b64encode encoded))
    /\ b64decode (b64encode encoded) = Some encoded
    /\ decode_payload (b64encode encoded) = Some [104; 101; 108; 108; 111]
    /\ (length [104; 101; 108; 108; 111] <= length encoded)%nat
    /\ (forallb (fun c => c <? 0x80) [104; 101; 108; 108; 111] = true ->
        length encoded = length [104; 101; 108; 108; 111]).
Proof.
  apply (upsert_stores_text_and_its_length quiet_env (personal ++ ["notes"; "a.md"])
           (world_of hello_tree) "notes/a.md" [104; 101; 108; 108; 111]).
  - reflexivity.
  - reflexivity.
  - compute_done.
  - reflexivity.
  - reflexivity.
Defined.

Lemma upsert_twice_same_payload_witness :
  let r1 := _sync_file_to_db quiet_env (personal ++ ["notes"; "a.md"])
              (world_of hello_tree) in
  let r2 := _sync_file_to_db quiet_env (personal ++ ["notes"; "a.md"]) (snd r1) in
  fst r1 = Ok tt /\ fst r2 = Ok tt
  /\ exists d1 d2,
      db (snd r1) !! "notes/a.md" = Some d1 /\ db (snd r2) !! "notes/a.md" = Some d2
      /\ is_Some (d1 !! "data") /\ is_Some (d1 !! "size")
      /\ d2 !! "data" = d1 !! "data" /\ d2 !! "size" = d1 !! "size"
      /\ forall k : string, k <> "mtime" -> d2 !! k = d1 !! k.
Proof.
  apply (upsert_twice_same_payload quiet_env (personal ++ ["notes"; "a.md"])
           (world_of hello_tree) "notes/a.md" [104; 101; 108; 108; 111]).
  - reflexivity.
  - reflexivity.
  - compute_done.
  - intros k _. reflexivity.
Defined.

(** ** End-to-end scenarios *)

(** Scenario 1: bulk reconciliation of [notes/a.md] holding ["hello"]. *)
Example scenario_hello :
  fst (initial_sync quiet_env (world_of hello_tree)) = Ok tt
  /\ (db (snd (initial_sync quiet_env (world_of hello_tree))) !! "notes/a.md")
       ≫= (fun fields => fields !! "size") = Some (VInt 5)
  /\ (db (snd (initial_sync quiet_env (world_of hello_tree))) !! "notes/a.md")
       ≫= (fun fields => fields !! "data") = Some (VStr "aGVsbG8=")
  /\ decode_payload "aGVsbG8=" = Some [104; 101; 108; 108; 111].
Proof. vm_compute. repeat split. Qed.

(** Scenario 3: a note under the reserved directory gets no document,
    neither from the bulk scan nor from a write notification. *)
Example scenario_reserved :
  db (snd (initial_sync quiet_env (world_of reserved_tree))) = ∅
  /\ calls (snd (initial_sync quiet_env (world_of reserved_tree))) = []
  /\ classify (mkEvent ["IN_CLOSE_WRITE"] "/opt/vaults/personal/drafts/.obsidian"
                       "cache.md") = Ignore.
Proof. vm_compute. repeat split. Qed.

(** Text mode translates line endings before the payload is built: the
    stored text of a CR LF file has LF only. *)
Example crlf_is_translated :
  read_text (personal ++ ["notes"; "w.md"]) (world_of crlf_tree)
  = (Ok [97; 10; 98], world_of crlf_tree)
  /\ (db (snd (_sync_file_to_db quiet_env (personal ++ ["notes"; "w.md"])
                 (world_of crlf_tree))) !! "notes/w.md")
       ≫= (fun fields => fields !! "size") = Some (VInt 3).
Proof. vm_compute. repeat split. Qed.

(** ** More on the identity mapper *)

Lemma split_on_absent c a : has_char c a = false -> split_on c a = [a].
Proof.
  induction a as [|x a IH]; cbn [has_char split_on]; [reflexivity|].
  destruct (Ascii.eqb x c); [discriminate|]. intros H. now rewrite (IH H).
Qed.

Lemma split_on_chunk c a rest :
  has_char c a = false -> split_on c (a +:+ String c rest) = a :: split_on c rest.
Proof.
  induction a as [|x a IH]; simpl.
  - intros _. now rewrite Ascii.eqb_refl.
  - destruct (Ascii.eqb x c); [discriminate|]. intros H. now rewrite (IH H).
Qed.

Lemma split_on_join c (l : list string) :
  forallb (fun s => negb (has_char c s)) l = true -> l <> [] ->
  split_on c (join (String c EmptyString) l) = l.
Proof.
  induction l as [|a l IH]; [congruence|]. intros H _.
  cbn [forallb] in H. apply andb_prop in H as [Ha H]. apply negb_true_iff in Ha.
  destruct l as [|b l]; [now apply split_on_absent|].
  rewrite join_cons.
  change (String c EmptyString +:+ ?x) with (String c x).
  rewrite (split_on_chunk c a _ Ha). f_equal. apply IH; [exact H|congruence].
Qed.

Lemma portable_parts_kept fl (rel : Path) :
  forallb (portable_part fl) rel = true ->
  List.filter (fun c => negb (String.eqb c "") && negb (String.eqb c ".")) rel = rel.
Proof.
  induction rel as [|s rel IH]; cbn [forallb List.filter]; [reflexivity|].
  intros H. apply andb_prop in H as [Hs H].
  unfold portable_part, wf_part in Hs.
  repeat (apply andb_prop in Hs as [Hs ?]).
  rewrite Hs. replace (negb (String.eqb s ".")) with true by (symmetry; assumption).
  cbn [andb]. now rewrite (IH H).
Qed.

Lemma portable_not_rooted fl s (rel : Path) :
  forallb (portable_part fl) (s :: rel) = true ->
  String.prefix "/" (join (String slash EmptyString) (s :: rel)) = false.
Proof.
  cbn [forallb]. intros H. apply andb_prop in H as [Hs _].
  unfold portable_part, wf_part in Hs.
  repeat (apply andb_prop in Hs as [Hs ?]).
  destruct s as [|x s]; [discriminate|].
  assert (Ascii.eqb x slash = false) as Hx.
  { match goal with H : negb (has_char slash _) = true |- _ =>
      apply negb_true_iff in H; cbn [has_char] in H; destruct (Ascii.eqb x slash);
      [discriminate|reflexivity] end. }
  assert (forall t, String.prefix "/" (String x t) = false) as P.
  { intros t. cbn [String.prefix]. destruct (ascii_dec "/" x) as [<-|_]; [|reflexivity].
    discriminate Hx. }
  destruct rel; [apply P|rewrite join_cons; apply P].
Qed.


(** X2: whatever the path and the host convention, an identifier the
    mapper returns contains no backslash. *)
Theorem doc_id_has_no_backslash (fl : flavour) (vault p : Path) (i : string) :
  _doc_id_from_path fl vault p = Some i -> has_char backslash i = false.
Proof. apply doc_id_no_backslash. Qed.

Lemma doc_id_has_no_backslash_witness :
  has_char backslash "a/b.md" = false.
Proof.
  apply (doc_id_has_no_backslash Posix personal
           (personal ++ ["a" +:+ String backslash "b.md"]) "a/b.md").
  reflexivity.
Defined.

(** X3: the mapping can be undone on portable paths: parsing the
    identifier as a POSIX path gives back the parts below the vault root. *)
Theorem doc_id_parses_back (fl : flavour) (vault rel : Path) (i : string) :
  forallb (portable_part fl) rel = true ->
  _doc_id_from_path fl vault (vault ++ rel) = Some i ->
  parse_posix i = rel.
Proof.
  intros H. rewrite (doc_id_portable fl vault rel H). intros [= <-].
  destruct rel as [|s rel]; [reflexivity|].
  unfold parse_posix, str_of_rel, sep.
  rewrite (portable_not_rooted fl s rel H).
  destruct (portable_parts_split fl (s :: rel) H) as (_ & Hs & _).
  rewrite (split_on_join slash (s :: rel) Hs) by congruence.
  exact (portable_parts_kept fl (s :: rel) H).
Qed.

Lemma doc_id_parses_back_witness :
  parse_posix "notes/a.md" = ["notes"; "a.md"].
Proof.
  apply (doc_id_parses_back Windows ["C:"; "vault"] ["notes"; "a.md"] "notes/a.md");
    reflexivity.
Defined.

(** ** Reasoning about outcomes *)

Lemma run_bind {A C} (m : M A) (k : A -> M C) w :
  (m ≫= k) w = match m w with
               | (Ok a, w') => k a w'
               | (Raise e, w') => (Raise e, w')
               end.
Proof. reflexivity. Qed.

Lemma preserves_bind_post {A B C} (proj : World -> B) (Q : A -> Prop)
  (m : M A) (k : A -> M C) :
  preserves proj m -> returns_only Q m ->
  (forall a, Q a -> preserves proj (k a)) ->
  preserves proj (m ≫= k).
Proof.
  intros Hm Hq Hk w. rewrite run_bind.
  specialize (Hm w). specialize (Hq w).
  destruct (m w) as [[a|e] w']; cbn [snd] in *; [|exact Hm].
  rewrite (Hk a (Hq a w' eq_refl)). exact Hm.
Qed.

Section Raises.
Context (P : exn -> Prop).


Lemma raises_only_gets {A} (f : World -> A) : raises_only P (gets f).
Proof. intros w e w' [=]. Qed.





End Raises.


Section Appends.
Context (R : StoreCall -> Prop).

Lemma appends_calls_still {A} (m : M A) :
  preserves calls m -> appends_calls R m.
Proof. intros H w. exists []. rewrite (H w), app_nil_r. now split. Qed.

Lemma appends_calls_bind {A C} (m : M A) (k : A -> M C) :
  appends_calls R m -> (forall a, appends_calls R (k a)) -> appends_calls R (m ≫= k).
Proof.
  intros Hm Hk w. rewrite run_bind. destruct (Hm w) as (x1 & E1 & F1).
  destruct (m w) as [[a|e] w0]; cbn [snd] in *.
  - destruct (Hk a w0) as (x2 & E2 & F2). exists (x1 ++ x2).
    rewrite E2, E1, app_assoc. split; [reflexivity|]. now apply Forall_app.
  - now exists x1.
Qed.

Lemma appends_calls_bind_post {A C} (Q : A -> Prop) (m : M A) (k : A -> M C) :
  appends_calls R m -> returns_only Q m ->
  (forall a, Q a -> appends_calls R (k a)) -> appends_calls R (m ≫= k).
Proof.
  intros Hm Hq Hk w. rewrite run_bind. destruct (Hm w) as (x1 & E1 & F1).
  specialize (Hq w).
  destruct (m w) as [[a|e] w0]; cbn [snd] in *.
  - destruct (Hk a (Hq a w0 eq_refl) w0) as (x2 & E2 & F2). exists (x1 ++ x2).
    rewrite E2, E1, app_assoc. split; [reflexivity|]. now apply Forall_app.
  - now exists x1.
Qed.

Lemma appends_calls_try_except {A} (body : M A) catches handler :
  appends_calls R body -> (forall e, appends_calls R (handler e)) ->
  appends_calls R (try_except body catches handler).
Proof.
  intros Hb Hh w. unfold try_except. destruct (Hb w) as (x1 & E1 & F1).
  destruct (body w) as [[a|e] w0]; cbn [snd] in *; [now exists x1|].
  destruct (catches e); [|now exists x1].
  destruct (Hh e w0) as (x2 & E2 & F2). exists (x1 ++ x2).
  rewrite E2, E1, app_assoc. split; [reflexivity|]. now apply Forall_app.
Qed.

Lemma appends_calls_try_finally {A} (body : M A) (fin : M unit) :
  appends_calls R body -> appends_calls R fin ->
  appends_calls R (try_finally body fin).
Proof.
  intros Hb Hf w. unfold try_finally. destruct (Hb w) as (x1 & E1 & F1).
  destruct (body w) as [r w0]; cbn [snd] in *.
  destruct (Hf w0) as (x2 & E2 & F2).
  destruct (fin w0) as [[[]|e] w1]; cbn [snd] in *; exists (x1 ++ x2);
    rewrite E2, E1, app_assoc; (split; [reflexivity|now apply Forall_app]).
Qed.

Lemma appends_calls_store_call env c : R c -> appends_calls R (store_call env c).
Proof.
  intros H w. exists [c]. unfold store_call.
  destruct (faults env _); cbn; (split; [reflexivity|]); repeat constructor; exact H.
Qed.
End Appends.

Lemma appends_calls_weaken {A} (R S : StoreCall -> Prop) (m : M A) :
  (forall c, R c -> S c) -> appends_calls R m -> appends_calls S m.
Proof.
  intros H Hm w. destruct (Hm w) as (x & E & F). exists x. split; [exact E|].
  eapply Forall_impl; eauto.
Qed.

(** ** What the engine's operations can do, on every outcome *)

Lemma doc_set_id k v d : _id (doc_set k v d) = _id d.
Proof. reflexivity. Qed.

Lemma get_or_create_id env id :
  returns_only (fun d => _id d = id)
    (try_except (db_getitem env id) is_ResourceNotFound
       (fun _ => mret (mkDoc id ∅))).
Proof.
  intros w d w'. unfold try_except, db_getitem. rewrite run_bind. unfold store_call.
  destruct (faults env _) as [e|].
  - destruct (is_ResourceNotFound e); [|discriminate]. now intros [= <- _].
  - rewrite bind_gets. destruct (db _ !! id).
    + now intros [= <- _].
    + cbn. now intros [= <- _].
Qed.

Lemma db_save_other_docs env doc (j : string) :
  j <> _id doc -> preserves (fun w => db w !! j) (db_save env doc).
Proof.
  intros H w. unfold db_save. rewrite run_bind. unfold store_call.
  destruct (faults env _); [reflexivity|]. cbn. now apply lookup_insert_ne.
Qed.

Lemma upsert_steps_other_docs env p id (j : string) :
  j <> id -> preserves (fun w => db w !! j) (upsert_steps env p id).
Proof.
  intros H. unfold upsert_steps.
  apply preserves_bind; [apply preserves_read_text|intros content].
  apply (preserves_bind_post _ (fun d => _id d = id)).
  { apply preserves_try_except; [apply preserves_db_getitem; reflexivity|].
    intros e. apply preserves_ret. }
  { apply get_or_create_id. }
  intros doc Hd.
  apply preserves_bind; [apply preserves_of_option|intros encoded]. cbv zeta.
  apply preserves_bind; [apply preserves_time_ms; reflexivity|intros now].
  apply preserves_bind; [|intros; apply preserves_logger_info; reflexivity].
  apply db_save_other_docs. rewrite !doc_set_id, Hd. exact H.
Qed.

(** The four ways through [_sync_file_to_db]. *)
Lemma sync_file_cases env p w :
  (path_is_file (fs w) p = false /\ _sync_file_to_db env p w = (Ok tt, w))
  \/ (path_is_file (fs w) p = true
      /\ _doc_id_from_path Posix (vault_path env) p = None
      /\ _sync_file_to_db env p w = (Raise ValueError, w))
  \/ (exists id, path_is_file (fs w) p = true
      /\ _doc_id_from_path Posix (vault_path env) p = Some id
      /\ (id ∈ _syncing w)
      /\ _sync_file_to_db env p w = (Ok tt, w))
  \/ (exists id, path_is_file (fs w) p = true
      /\ _doc_id_from_path Posix (vault_path env) p = Some id
      /\ (id ∉ _syncing w)
      /\ _sync_file_to_db env p w = guarded_upsert env p id w).
Proof.
  destruct (path_is_file (fs w) p) eqn:F.
  - right. destruct (_doc_id_from_path Posix (vault_path env) p) as [id|] eqn:I.
    + right. destruct (decide (id ∈ _syncing w)) as [B|B].
      * left. exists id. repeat split; try assumption.
        unfold _sync_file_to_db. rewrite (bind_gets fs), F, (is_file_exists _ _ F).
        cbn [negb orb]. unfold doc_id_of. rewrite I. cbn [of_option].
        rewrite (bind_ret id), (bind_gets _syncing). now rewrite bool_decide_eq_true_2.
      * right. exists id. repeat split; try assumption.
        now apply sync_file_past_checks.
    + left. repeat split.
      unfold _sync_file_to_db. rewrite (bind_gets fs), F, (is_file_exists _ _ F).
      cbn [negb orb]. unfold doc_id_of. rewrite I. reflexivity.
  - left. split; [reflexivity|].
    unfold _sync_file_to_db. rewrite (bind_gets fs), F. cbn [negb].
    now rewrite orb_true_r.
Qed.

Lemma guarded_other_docs env p id (j : string) :
  j <> id -> preserves (fun w => db w !! j) (guarded_upsert env p id).
Proof.
  intros H. unfold guarded_upsert.
  apply preserves_try_finally; [|now apply preserves_modify].
  apply preserves_try_except; [|intros; now apply preserves_logger_error].
  apply preserves_bind; [now apply preserves_modify|intros _].
  now apply upsert_steps_other_docs.
Qed.

(** Upsert writes under no identifier but the path's own. *)
Lemma sync_file_other_docs env p (j : string) :
  _doc_id_from_path Posix (vault_path env) p <> Some j ->
  preserves (fun w => db w !! j) (_sync_file_to_db env p).
Proof.
  intros H w.
  destruct (sync_file_cases env p w)
    as [[_ ->]|[(_ & _ & ->)|[(id & _ & _ & _ & ->)|(id & _ & I & _ & ->)]]];
    try reflexivity.
  apply guarded_other_docs. congruence.
Qed.

Lemma guarded_keeps_syncing env p id w :
  id ∉ _syncing w -> _syncing (snd (guarded_upsert env p id w)) = _syncing w.
Proof.
  intros B. unfold guarded_upsert, try_finally. rewrite try_except_modify.
  pose proof (preserves_try_except _syncing (upsert_steps env p id) is_Exception
                (fun e => logger_error (FailedToSync id e))
                (preserves_upsert_steps _syncing
                   (fun _ _ => eq_refl) (fun _ _ => eq_refl) (fun _ => eq_refl)
                   (fun _ _ => eq_refl) env p id)
                (fun e => preserves_logger_error _syncing (fun _ _ => eq_refl) _)
                (set_syncing (fun s => s ∪ {[id]}) w)) as P.
  destruct (try_except _ _ _ _) as [r w']. cbn in P |- *.
  rewrite P. now apply mark_unmark.
Qed.

(** Upsert returns the marker set as it found it. *)
Lemma sync_file_keeps_syncing env p : preserves _syncing (_sync_file_to_db env p).
Proof.
  intros w.
  destruct (sync_file_cases env p w)
    as [[_ ->]|[(_ & _ & ->)|[(id & _ & _ & _ & ->)|(id & _ & _ & B & ->)]]];
    try reflexivity.
  now apply guarded_keeps_syncing.
Qed.

(** *** Store calls *)

Lemma appends_calls_modify (R : StoreCall -> Prop) (f : World -> World) :
  (forall w, calls (f w) = calls w) -> appends_calls R (modify f).
Proof. intros H. apply appends_calls_still. intros w. apply H. Qed.

Lemma upsert_steps_calls env p id :
  appends_calls (fun c => is_Delete c = false /\ call_id c = id)
    (upsert_steps env p id).
Proof.
  unfold upsert_steps.
  apply appends_calls_bind;
    [apply appends_calls_still, preserves_read_text|intros content].
  apply (appends_calls_bind_post _ (fun d => _id d = id)).
  { apply appends_calls_try_except.
    - unfold db_getitem. apply appends_calls_bind;
        [now apply appends_calls_store_call|intros _].
      apply appends_calls_still. intros w. rewrite bind_gets.
      now destruct (db w !! id).
    - intros e. apply appends_calls_still. now intros w. }
  { apply get_or_create_id. }
  intros doc Hd.
  apply appends_calls_bind;
    [apply appends_calls_still, preserves_of_option|intros encoded]. cbv zeta.
  apply appends_calls_bind; [apply appends_calls_still; now intros w|intros now].
  apply appends_calls_bind; [|intros; now apply appends_calls_modify].
  unfold db_save. apply appends_calls_bind; [|intros; now apply appends_calls_modify].
  apply appends_calls_store_call. now rewrite <- Hd.
Qed.

Lemma guarded_calls env p id :
  appends_calls (fun c => is_Delete c = false /\ call_id c = id)
    (guarded_upsert env p id).
Proof.
  unfold guarded_upsert.
  apply appends_calls_try_finally; [|now apply appends_calls_modify].
  apply appends_calls_try_except; [|intros; now apply appends_calls_modify].
  apply appends_calls_bind; [now apply appends_calls_modify|intros _].
  apply upsert_steps_calls.
Qed.

(** Upsert only looks up and saves, and only under the path's identifier. *)
Lemma sync_file_calls env p :
  appends_calls
    (fun c => is_Delete c = false
              /\ _doc_id_from_path Posix (vault_path env) p = Some (call_id c))
    (_sync_file_to_db env p).
Proof.
  intros w.
  destruct (sync_file_cases env p w)
    as [[_ ->]|[(_ & _ & ->)|[(id & _ & _ & _ & ->)|(id & _ & I & _ & ->)]]];
    try (exists []; rewrite app_nil_r; now split).
  destruct (guarded_calls env p id w) as (x & E & F). exists x. split; [exact E|].
  eapply Forall_impl; [exact F|]. intros c [D C]. split; [exact D|congruence].
Qed.

(** *** Exceptions *)









(** *** Delete Propagation *)

Lemma preserves_ret_bind {A B C} (proj : World -> B) (a : A) (k : A -> M C) :
  preserves proj (k a) -> preserves proj (ret a ≫= k).
Proof. intros H w. exact (H w). Qed.

Lemma appends_calls_ret_bind {A C} (R : StoreCall -> Prop) (a : A) (k : A -> M C) :
  appends_calls R (k a) -> appends_calls R (ret a ≫= k).
Proof. intros H w. exact (H w). Qed.


Lemma db_getitem_id env id : returns_only (fun d => _id d = id) (db_getitem env id).
Proof.
  intros w d w'. unfold db_getitem. rewrite run_bind. unfold store_call.
  destruct (faults env _); [discriminate|]. rewrite bind_gets.
  destruct (db _ !! id); [|discriminate]. now intros [= <- _].
Qed.

Lemma db_delete_other_docs env doc (j : string) :
  j <> _id doc -> preserves (fun w => db w !! j) (db_delete env doc).
Proof.
  intros H w. unfold db_delete. rewrite run_bind. unfold store_call.
  destruct (faults env _); [reflexivity|]. rewrite bind_gets. cbn [db add_call].
  destruct (db w !! _id doc); [|reflexivity]. cbn. now apply lookup_delete_ne.
Qed.

Lemma delete_other_docs env p (j : string) :
  _doc_id_from_path Posix (vault_path env) p <> Some j ->
  preserves (fun w => db w !! j) (delete_propagation env p).
Proof.
  intros H. unfold delete_propagation, doc_id_of.
  apply preserves_try_except; [|intros; apply preserves_ret].
  destruct (_doc_id_from_path Posix (vault_path env) p) as [id|]; cbn [of_option];
    [|intros w; reflexivity].
  assert (j <> id) as Hj by congruence.
  apply preserves_ret_bind.
  apply (preserves_bind_post _ (fun d => _id d = id));
    [now apply preserves_db_getitem|apply db_getitem_id|intros doc Hd].
  apply preserves_bind; [|intros; now apply preserves_logger_info].
  apply db_delete_other_docs. congruence.
Qed.

Lemma delete_calls env p :
  appends_calls
    (fun c => _doc_id_from_path Posix (vault_path env) p = Some (call_id c))
    (delete_propagation env p).
Proof.
  unfold delete_propagation, doc_id_of.
  apply appends_calls_try_except; [|intros; apply appends_calls_still; now intros w].
  destruct (_doc_id_from_path Posix (vault_path env) p) as [id|]; cbn [of_option];
    [|apply appends_calls_still; now intros w].
  apply appends_calls_ret_bind.
  apply (appends_calls_bind_post _ (fun d => _id d = id)).
  { unfold db_getitem. apply appends_calls_bind;
      [now apply appends_calls_store_call|intros _].
    apply appends_calls_still. intros w. rewrite bind_gets. now destruct (db w !! id). }
  { apply db_getitem_id. }
  intros doc Hd. apply appends_calls_bind; [|intros; now apply appends_calls_modify].
  unfold db_delete. apply appends_calls_bind.
  - apply appends_calls_store_call. cbn. now rewrite Hd.
  - intros _. apply appends_calls_still. intros w. rewrite bind_gets.
    now destruct (db w !! _id doc).
Qed.


(** *** The loops *)


Lemma handle_event_keeps_syncing env ev : preserves _syncing (handle_event env ev).
Proof.
  unfold handle_event. destruct (classify ev).
  - apply preserves_ret.
  - apply preserves_bind; [now apply preserves_logger_info|intros _].
    apply sync_file_keeps_syncing.
  - now apply preserves_delete_propagation.
Qed.

Lemma watch_loop_keeps_syncing env events : preserves _syncing (watch_loop env events).
Proof.
  induction events as [|ev events IH]; cbn [watch_loop]; [apply preserves_ret|].
  apply preserves_bind; [apply handle_event_keeps_syncing|intros _; exact IH].
Qed.

Lemma sync_each_keeps_syncing env files count :
  preserves _syncing (sync_each env files count).
Proof.
  revert count. induction files as [|f files IH]; intros count; cbn [sync_each];
    [apply preserves_ret|].
  destruct (in_parts reserved f); [apply IH|].
  apply preserves_bind; [apply sync_file_keeps_syncing|intros _; apply IH].
Qed.

Lemma initial_sync_keeps_syncing env : preserves _syncing (initial_sync env).
Proof.
  unfold initial_sync.
  apply preserves_bind; [now apply preserves_logger_info|intros _].
  apply preserves_bind; [apply preserves_gets|intros root].
  apply preserves_bind; [apply sync_each_keeps_syncing|intros count].
  now apply preserves_logger_info.
Qed.

Lemma run_keeps_syncing env events : preserves _syncing (run env events).
Proof.
  unfold run, watch_filesystem, sys_exit.
  apply preserves_bind; [now apply preserves_logger_info|intros _].
  apply preserves_bind; [apply initial_sync_keeps_syncing|intros _].
  apply preserves_try_except.
  - apply preserves_bind; [now apply preserves_logger_info|intros _].
    apply watch_loop_keeps_syncing.
  - intros e. apply preserves_bind; [now apply preserves_logger_info|intros _].
    apply preserves_raise.
Qed.

Lemma main_keeps_syncing env events : preserves _syncing (main env events).
Proof.
  unfold main, sys_exit. apply preserves_try_except; [apply run_keeps_syncing|].
  intros e. apply preserves_bind; [now apply preserves_logger_error|intros _].
  apply preserves_raise.
Qed.

(** *** The tree and its enumeration *)

Lemma node_nested_ind (P : node -> Prop) :
  (forall d, P (File d)) ->
  (forall es, Forall (fun e => P (snd e)) es -> P (Dir es)) ->
  forall n, P n.
Proof.
  intros Hf Hd. fix IH 1. intros [d|es]; [apply Hf|].
  apply Hd. induction es as [|e es IHes]; constructor; [apply IH|exact IHes].
Qed.

Lemma rglob_md_Dir here es :
  rglob_md here (Dir es)
  = List.map (fun e => here ++ [fst e])
             (List.filter (fun e => endswith (fst e) ".md") es)
    ++ List.flat_map (fun e => rglob_md (here ++ [fst e]) (snd e)) es.
Proof. reflexivity. Qed.

Lemma rglob_md_below n : forall here p,
  In p (rglob_md here n) ->
  exists rel name, p = here ++ rel ++ [name] /\ endswith name ".md" = true.
Proof.
  induction n as [d|es IH] using node_nested_ind; intros here p; [intros []|].
  rewrite rglob_md_Dir, in_app_iff, in_map_iff, in_flat_map.
  intros [(e & <- & He)|(e & He & Hp)].
  - apply filter_In in He as [_ He]. now exists [], (fst e).
  - rewrite List.Forall_forall in IH.
    destruct (IH e He _ _ Hp) as (rel & name & -> & Hn).
    exists (fst e :: rel), name. split; [|exact Hn].
    now rewrite <- app_assoc.
Qed.






(** *** Bulk reconciliation *)

Lemma sync_each_count env files : forall count w c w',
  sync_each env files count w = (Ok c, w') ->
  c = count + Z.of_nat (length (List.filter not_reserved files)).
Proof.
  induction files as [|f files IH]; intros count w c w'; cbn [sync_each List.filter].
  - intros [= <- _]. cbn. lia.
  - unfold not_reserved at 1. destruct (in_parts reserved f); cbn [negb].
    + apply IH.
    + rewrite run_bind. destruct (_sync_file_to_db env f w) as [[[]|e] w0];
        [|discriminate].
      intros H. apply IH in H. cbn [length]. lia.
Qed.

Lemma sync_each_calls env files : forall count,
  appends_calls
    (fun c => is_Delete c = false
              /\ exists p, In p files /\ in_parts reserved p = false
                 /\ _doc_id_from_path Posix (vault_path env) p = Some (call_id c))
    (sync_each env files count).
Proof.
  induction files as [|f files IH]; intros count; cbn [sync_each].
  - apply appends_calls_still. now intros w.
  - destruct (in_parts reserved f) eqn:R.
    + eapply appends_calls_weaken; [|apply (IH count)].
      intros c (D & p & Hp & Hr & Hi). split; [exact D|]. exists p. split; [now right|].
      now split.
    + apply appends_calls_bind.
      * eapply appends_calls_weaken; [|apply sync_file_calls].
        intros c [D Hi]. split; [exact D|]. exists f. split; [now left|]. now split.
      * intros _. eapply appends_calls_weaken; [|apply (IH (count + 1))].
        intros c (D & p & Hp & Hr & Hi). split; [exact D|]. exists p.
        split; [now right|]. now split.
Qed.

Lemma sync_each_other_docs env (j : string) files : forall count,
  (forall p, In p files -> in_parts reserved p = false ->
             _doc_id_from_path Posix (vault_path env) p <> Some j) ->
  preserves (fun w => db w !! j) (sync_each env files count).
Proof.
  induction files as [|f files IH]; intros count H; cbn [sync_each].
  - apply preserves_ret.
  - destruct (in_parts reserved f) eqn:R.
    + apply IH. intros p Hp. apply H. now right.
    + apply preserves_bind.
      * apply sync_file_other_docs. apply H; [now left|exact R].
      * intros _. apply IH. intros p Hp. apply H. now right.
Qed.


(** [initial_sync], run from [w]: the loop starts in [w] with one more
    log record and a last record is appended when it returns. *)
Lemma initial_sync_run env w :
  initial_sync env w
  = match sync_each env (scanned env w) 0
            (add_log (INFO, StartingInitialSync (vault_name env)) w) with
    | (Ok count, w') => (Ok tt, add_log (INFO, InitialSyncComplete count) w')
    | (Raise e, w') => (Raise e, w')
    end.
Proof.
  unfold initial_sync, logger_info. rewrite bind_modify, (bind_gets fs), run_bind.
  unfold scanned. cbn [fs add_log].
  destruct (sync_each _ _ _ _) as [[c|e] w']; reflexivity.
Qed.

(** *** The watch loop *)




(** ** Further properties of Upsert *)

Lemma db_save_fault env doc w e :
  faults env (length (calls w)) = Some e ->
  db_save env doc w = (Raise e, add_call (Save doc) w).
Proof.
  intros F. unfold db_save.
  now rewrite (bind_raise _ _ _ _ _ (store_call_fault _ _ _ _ F)).
Qed.



(** X5: for a regular file that is not below the vault root the mapper's
    [ValueError] leaves Upsert: it is raised before the [try], so it is
    neither logged nor caught, and nothing has changed. *)
Theorem upsert_outside_vault_raises (env : Env) (p : Path) (w : World) :
  path_is_file (fs w) p = true ->
  _doc_id_from_path Posix (vault_path env) p = None ->
  _sync_file_to_db env p w = (Raise ValueError, w).
Proof.
  intros F I. unfold _sync_file_to_db.
  rewrite (bind_gets fs), F, (is_file_exists _ _ F). cbn [negb orb].
  unfold doc_id_of. now rewrite I.
Qed.

Lemma upsert_outside_vault_raises_witness :
  _sync_file_to_db quiet_env ["/"; "tmp"; "x.md"] (world_of outside_tree)
  = (Raise ValueError, world_of outside_tree).
Proof.
  apply (upsert_outside_vault_raises quiet_env ["/"; "tmp"; "x.md"]
           (world_of outside_tree)); reflexivity.
Defined.

Lemma upsert_steps_save_fault env p id w bytes cs encoded e :
  fs_lookup (fs w) p = Some (File bytes) ->
  utf8_decode bytes = Some cs ->
  str_encode (universal_newlines cs) = Some encoded ->
  faults env (length (calls w)) = None ->
  faults env (S (length (calls w))) = Some e ->
  upsert_steps env p id w
  = (Raise e,
     mkWorld (fs w) (db w) (_syncing w) (log w)
       (calls w ++ [Get id;
                    Save (mkDoc id (upsert_fields (default ∅ (db w !! id))
                                      (universal_newlines cs) encoded
                                      (clock env (clock_reads w))))])
       (S (clock_reads w))).
Proof.
  intros L D E F1 F2. unfold upsert_steps.
  rewrite (bind_ok _ _ _ _ _ (read_text_ok _ _ _ _ L D)).
  rewrite (bind_ok _ _ _ _ _ (get_or_create_ok _ _ _ F1)).
  rewrite E. cbn [of_option]. rewrite (bind_ret encoded). cbv beta zeta.
  unfold time_ms at 1.
  erewrite bind_ok; [|reflexivity].
  erewrite bind_raise;
    [|apply db_save_fault; cbn [calls tick_clock add_call]; rewrite length_snoc; exact F2].
  unfold tick_clock, add_call, doc_set, upsert_fields. cbn.
  rewrite <- app_assoc. reflexivity.
Qed.

(** X6: when the save fails, nothing is stored.  An error that
    [except Exception] catches is logged and Upsert returns normally; any
    other (an interrupt) leaves Upsert unlogged.  Either way the lookup
    and the attempted save are the two calls made, the clock was read once
    and the marker set is as before. *)
Theorem upsert_save_failure
  (env : Env) (p : Path) (w : World) (id : string) (content : list Z) (e : exn) :
  read_text p w = (Ok content, w) ->
  _doc_id_from_path Posix (vault_path env) p = Some id ->
  id ∉ _syncing w ->
  faults env (length (calls w)) = None ->
  faults env (S (length (calls w))) = Some e ->
  exists doc,
    _id doc = id
    /\ _sync_file_to_db env p w
       = (if is_Exception e then Ok tt else Raise e,
          mkWorld (fs w) (db w) (_syncing w)
            (if is_Exception e then log w ++ [(ERROR, FailedToSync id e)] else log w)
            (calls w ++ [Get id; Save doc]) (S (clock_reads w))).
Proof.
  intros R I B F1 F2.
  destruct (read_text_encodable _ _ _ _ R) as [encoded E].
  apply read_text_inv in R as (_ & bytes & cs & L & D & ->).
  exists (mkDoc id (upsert_fields (default ∅ (db w !! id)) (universal_newlines cs)
                      encoded (clock env (clock_reads w)))).
  split; [reflexivity|].
  rewrite (sync_file_past_checks env p w id (lookup_is_file _ _ _ L) I B).
  unfold try_finally, try_except. rewrite bind_modify.
  erewrite upsert_steps_save_fault; [|exact L|exact D|exact E|exact F1|exact F2].
  destruct (is_Exception e); cbn; unfold set_syncing, add_log; cbn;
    now rewrite (mark_unmark _ _ B).
Qed.

Lemma upsert_save_failure_witness :
  exists doc,
    _id doc = "notes/a.md"
    /\ _sync_file_to_db (failing_env 1 ServerError) (personal ++ ["notes"; "a.md"])
         (world_of hello_tree)
       = (if is_Exception ServerError then Ok tt else Raise ServerError,
          mkWorld (fs (world_of hello_tree)) (db (world_of hello_tree))
            (_syncing (world_of hello_tree))
            (if is_Exception ServerError
             then log (world_of hello_tree)
                  ++ [(ERROR, FailedToSync "notes/a.md" ServerError)]
             else log (world_of hello_tree))
            (calls (world_of hello_tree) ++ [Get "notes/a.md"; Save doc])
            (S (clock_reads (world_of hello_tree)))).
Proof.
  apply (upsert_save_failure (failing_env 1 ServerError) (personal ++ ["notes"; "a.md"])
           (world_of hello_tree) "notes/a.md" [104; 101; 108; 108; 111] ServerError).
  - reflexivity.
  - reflexivity.
  - compute_done.
  - reflexivity.
  - reflexivity.
Defined.

(** X7: when the lookup fails with anything but not-found, no save is
    attempted.  An error that [except Exception] catches is logged and
    Upsert returns normally; any other leaves Upsert unlogged.  The store,
    the clock and the marker set are as before. *)
Theorem upsert_lookup_failure
  (env : Env) (p : Path) (w : World) (id : string) (content : list Z) (e : exn) :
  read_text p w = (Ok content, w) ->
  _doc_id_from_path Posix (vault_path env) p = Some id ->
  id ∉ _syncing w ->
  faults env (length (calls w)) = Some e ->
  is_ResourceNotFound e = false ->
  _sync_file_to_db env p w
  = (if is_Exception e then Ok tt else Raise e,
     mkWorld (fs w) (db w) (_syncing w)
       (if is_Exception e then log w ++ [(ERROR, FailedToSync id e)] else log w)
       (calls w ++ [Get id]) (clock_reads w)).
Proof.
  intros R I B F N.
  apply read_text_inv in R as (_ & bytes & cs & L & D & ->).
  rewrite (sync_file_past_checks env p w id (lookup_is_file _ _ _ L) I B).
  unfold try_finally, try_except at 1. rewrite bind_modify.
  unfold upsert_steps.
  erewrite bind_ok; [|apply (read_text_ok p _ bytes cs); [exact L|exact D]].
  erewrite bind_raise.
  2:{ unfold try_except. erewrite db_getitem_fault; [|exact F]. rewrite N. reflexivity. }
  destruct (is_Exception e); cbn; unfold set_syncing, add_log; cbn;
    now rewrite (mark_unmark _ _ B).
Qed.

Lemma upsert_lookup_failure_witness :
  _sync_file_to_db (failing_env 0 KeyboardInterrupt) (personal ++ ["notes"; "a.md"])
    (world_of hello_tree)
  = (if is_Exception KeyboardInterrupt then Ok tt else Raise KeyboardInterrupt,
     mkWorld (fs (world_of hello_tree)) (db (world_of hello_tree))
       (_syncing (world_of hello_tree))
       (if is_Exception KeyboardInterrupt
        then log (world_of hello_tree)
             ++ [(ERROR, FailedToSync "notes/a.md" KeyboardInterrupt)]
        else log (world_of hello_tree))
       (calls (world_of hello_tree) ++ [Get "notes/a.md"])
       (clock_reads (world_of hello_tree))).
Proof.
  apply (upsert_lookup_failure (failing_env 0 KeyboardInterrupt)
           (personal ++ ["notes"; "a.md"]) (world_of hello_tree) "notes/a.md"
           [104; 101; 108; 108; 111] KeyboardInterrupt).
  - reflexivity.
  - reflexivity.
  - compute_done.
  - reflexivity.
  - reflexivity.
Defined.



(** X9: whatever happens, Upsert changes no document other than the one
    under the path's own identifier. *)
Theorem upsert_touches_only_its_document
  (env : Env) (p : Path) (w : World) (j : string) :
  _doc_id_from_path Posix (vault_path env) p <> Some j ->
  db (snd (_sync_file_to_db env p w)) !! j = db w !! j.
Proof. intros H. exact (sync_file_other_docs env p j H w). Qed.

Lemma upsert_touches_only_its_document_witness :
  db (snd (_sync_file_to_db quiet_env (personal ++ ["notes"; "b.md"])
             (mkWorld b_only (db stored_world) ∅ [] [] 0))) !! "notes/a.md"
  = db (mkWorld b_only (db stored_world) ∅ [] [] 0) !! "notes/a.md".
Proof.
  apply (upsert_touches_only_its_document quiet_env (personal ++ ["notes"; "b.md"])
           (mkWorld b_only (db stored_world) ∅ [] [] 0) "notes/a.md").
  discriminate.
Defined.

(** X10: a successful Upsert over an existing document is a
    read-modify-write: fields other than [data], [mtime], [size] and
    [type] keep their stored values, [type] is ["plain"] and [mtime] is
    the engine clock's reading. *)
Theorem upsert_keeps_foreign_fields
  (env : Env) (p : Path) (w : World) (id : string) (content : list Z)
  (old : gmap string value) :
  read_text p w = (Ok content, w) ->
  _doc_id_from_path Posix (vault_path env) p = Some id ->
  id ∉ _syncing w ->
  faults env (length (calls w)) = None ->
  faults env (S (length (calls w))) = None ->
  db w !! id = Some old ->
  exists fields,
    db (snd (_sync_file_to_db env p w)) !! id = Some fields
    /\ fields !! "type" = Some (VStr "plain")
    /\ fields !! "mtime" = Some (VInt (clock env (clock_reads w)))
    /\ forall k : string,
        k <> "data" -> k <> "mtime" -> k <> "size" -> k <> "type" ->
        fields !! k = old !! k.
Proof.
  intros R I B F1 F2 O.
  destruct (read_text_encodable _ _ _ _ R) as [encoded E].
  rewrite (upsert_ok env p w id content encoded R E I B F1 F2).
  eexists. split; [apply lookup_insert_eq|]. rewrite O. cbn [default].
  split; [now rewrite upsert_fields_lookup|].
  split; [now rewrite upsert_fields_lookup|].
  intros k H1 H2 H3 H4. rewrite upsert_fields_lookup.
  repeat (destruct (decide _); [congruence|]). reflexivity.
Qed.

Lemma upsert_keeps_foreign_fields_witness :
  exists fields,
    db (snd (_sync_file_to_db quiet_env (personal ++ ["notes"; "a.md"]) stored_world))
      !! "notes/a.md" = Some fields
    /\ fields !! "type" = Some (VStr "plain")
    /\ fields !! "mtime" = Some (VInt (clock quiet_env (clock_reads stored_world)))
    /\ forall k : string,
        k <> "data" -> k <> "mtime" -> k <> "size" -> k <> "type" ->
        fields !! k = ({["children" := VStr "x"]} : gmap string value) !! k.
Proof.
  apply (upsert_keeps_foreign_fields quiet_env (personal ++ ["notes"; "a.md"])
           stored_world "notes/a.md" [104; 101; 108; 108; 111]
           {["children" := VStr "x"]}).
  - reflexivity.
  - reflexivity.
  - compute_done.
  - reflexivity.
  - reflexivity.
  - reflexivity.
Defined.

(** X11: on every outcome Upsert only appends to the record of store
    calls, never a delete, and each call it makes is about the path's own
    identifier. *)
Theorem upsert_store_calls (env : Env) (p : Path) (w : World) :
  exists extra,
    calls (snd (_sync_file_to_db env p w)) = calls w ++ extra
    /\ Forall (fun c => is_Delete c = false
                        /\ _doc_id_from_path Posix (vault_path env) p
                           = Some (call_id c)) extra.
Proof. exact (sync_file_calls env p w). Qed.

(** ** Further properties of bulk reconciliation *)

(** X12: every path the bulk scan enumerates lies strictly below the
    vault root and its last part ends in [".md"]. *)
Theorem bulk_scan_paths (env : Env) (w : World) (p : Path) :
  In p (scanned env w) ->
  exists rel name,
    p = vault_path env ++ rel ++ [name] /\ endswith name ".md" = true.
Proof.
  unfold scanned. destruct (fs_lookup _ _) as [n|]; [|intros []].
  apply rglob_md_below.
Qed.

Lemma bulk_scan_paths_witness :
  exists rel name,
    personal ++ ["notes"; "a.md"] = vault_path quiet_env ++ rel ++ [name]
    /\ endswith name ".md" = true.
Proof.
  apply (bulk_scan_paths quiet_env (world_of hello_tree) (personal ++ ["notes"; "a.md"])).
  vm_compute. now left.
Defined.



(** X14: the number [initial_sync] reports counts every enumerated path
    outside the reserved directory, whether or not that path was synced
    (a directory named like a note, an undecodable file and a failed save
    all count). *)
Theorem initial_sync_counts_attempts (env : Env) (w w' : World) :
  initial_sync env w = (Ok tt, w') ->
  last (log w')
  = Some (INFO, InitialSyncComplete
                  (Z.of_nat (length (List.filter not_reserved (scanned env w))))).
Proof.
  rewrite initial_sync_run.
  destruct (sync_each _ _ _ _) as [[c|e] w1] eqn:E; [|discriminate].
  intros [= <-]. apply sync_each_count in E. subst c.
  unfold add_log. cbn [log]. now rewrite last_snoc.
Qed.

Lemma initial_sync_counts_attempts_witness :
  last (log (snd (initial_sync quiet_env (world_of mixed_tree))))
  = Some (INFO, InitialSyncComplete
                  (Z.of_nat (length (List.filter not_reserved
                                       (scanned quiet_env (world_of mixed_tree)))))).
Proof.
  apply (initial_sync_counts_attempts quiet_env (world_of mixed_tree)
           (snd (initial_sync quiet_env (world_of mixed_tree)))).
  vm_compute. reflexivity.
Defined.

(** X15: the bulk scan leaves alone every document that is not the
    document of an enumerated path outside the reserved directory; in
    particular it never writes one for a reserved note. *)
Theorem initial_sync_writes_only_tracked_notes (env : Env) (w : World) (j : string) :
  (forall p, In p (scanned env w) -> in_parts reserved p = false ->
             _doc_id_from_path Posix (vault_path env) p <> Some j) ->
  db (snd (initial_sync env w)) !! j = db w !! j.
Proof.
  intros H. rewrite initial_sync_run.
  pose proof (sync_each_other_docs env j (scanned env w) 0 H
                (add_log (INFO, StartingInitialSync (vault_name env)) w)) as P.
  destruct (sync_each _ _ _ _) as [[c|e] w1]; exact P.
Qed.

Lemma initial_sync_writes_only_tracked_notes_witness :
  db (snd (initial_sync quiet_env (world_of mixed_tree))) !! "drafts/.obsidian/cache.md"
  = db (world_of mixed_tree) !! "drafts/.obsidian/cache.md".
Proof.
  apply (initial_sync_writes_only_tracked_notes quiet_env (world_of mixed_tree)
           "drafts/.obsidian/cache.md").
  intros p Hp. vm_compute in Hp.
  repeat (destruct Hp as [<-|Hp]; [vm_compute; congruence|]). destruct Hp.
Defined.

(** X16: the store calls of the bulk scan are lookups and saves only,
    each about the identifier of an enumerated path outside the reserved
    directory. *)
Theorem initial_sync_store_calls (env : Env) (w : World) :
  exists extra,
    calls (snd (initial_sync env w)) = calls w ++ extra
    /\ Forall (fun c => is_Delete c = false
                        /\ exists p, In p (scanned env w)
                           /\ in_parts reserved p = false
                           /\ _doc_id_from_path Posix (vault_path env) p
                              = Some (call_id c)) extra.
Proof.
  rewrite initial_sync_run.
  destruct (sync_each_calls env (scanned env w) 0
              (add_log (INFO, StartingInitialSync (vault_name env)) w))
    as (extra & E & F).
  exists extra. split; [|exact F].
  destruct (sync_each _ _ _ _) as [[c|e] w1]; exact E.
Qed.




(** ** Further properties of the watch loop and of the daemon *)

(** X18: notifications are handled one after the other, in the order
    delivered: handling a batch followed by another is handling the first
    and then, if that returned, the second from the state it left. *)
Theorem watch_loop_in_order (env : Env) (es1 es2 : list Event) (w : World) :
  watch_loop env (es1 ++ es2) w
  = match watch_loop env es1 w with
    | (Ok _, w') => watch_loop env es2 w'
    | (Raise e, w') => (Raise e, w')
    end.
Proof.
  revert w. induction es1 as [|ev es1 IH]; intros w; cbn [app watch_loop].
  - reflexivity.
  - rewrite !run_bind. destruct (handle_event env ev w) as [[[]|e] w0]; [apply IH|].
    reflexivity.
Qed.

Lemma db_delete_ok env doc w fields :
  faults env (length (calls w)) = None -> db w !! _id doc = Some fields ->
  db_delete env doc w
  = (Ok tt, set_db (fun m => delete (_id doc) m) (add_call (Delete doc) w)).
Proof.
  intros F D. unfold db_delete.
  rewrite (bind_ok _ _ _ _ _ (store_call_ok _ _ _ F)), bind_gets.
  cbn [db add_call]. now rewrite D.
Qed.

Lemma delete_found env p w id fields :
  _doc_id_from_path Posix (vault_path env) p = Some id ->
  db w !! id = Some fields ->
  faults env (length (calls w)) = None ->
  faults env (S (length (calls w))) = None ->
  delete_propagation env p w
  = (Ok tt,
     mkWorld (fs w) (delete id (db w)) (_syncing w)
       (log w ++ [(INFO, DeletedFromDB id)])
       (calls w ++ [Get id; Delete (mkDoc id fields)]) (clock_reads w)).
Proof.
  intros I D F1 F2. unfold delete_propagation, try_except, doc_id_of.
  rewrite I. cbn [of_option]. rewrite (bind_ret id).
  rewrite (bind_ok _ _ _ _ _ (db_getitem_found env id w fields F1 D)).
  erewrite bind_ok.
  2:{ apply (db_delete_ok env _ _ fields); cbn [calls add_call _id db];
      [now rewrite length_snoc|exact D]. }
  unfold logger_info, modify, add_log, set_db, add_call. cbn.
  now rewrite <- app_assoc.
Qed.

(** X19: when the store answers and holds a document under the path's
    identifier, Delete Propagation removes exactly that document, with one
    lookup and one delete, and logs the deletion. *)
Theorem delete_existing_removes_document
  (env : Env) (p : Path) (w : World) (id : string) (fields : gmap string value) :
  _doc_id_from_path Posix (vault_path env) p = Some id ->
  db w !! id = Some fields ->
  faults env (length (calls w)) = None ->
  faults env (S (length (calls w))) = None ->
  delete_propagation env p w
  = (Ok tt,
     mkWorld (fs w) (delete id (db w)) (_syncing w)
       (log w ++ [(INFO, DeletedFromDB id)])
       (calls w ++ [Get id; Delete (mkDoc id fields)]) (clock_reads w)).
Proof. apply delete_found. Qed.

Lemma delete_existing_removes_document_witness :
  delete_propagation quiet_env (personal ++ ["notes"; "a.md"]) stored_world
  = (Ok tt,
     mkWorld (fs stored_world) (delete "notes/a.md" (db stored_world))
       (_syncing stored_world)
       (log stored_world ++ [(INFO, DeletedFromDB "notes/a.md")])
       (calls stored_world
        ++ [Get "notes/a.md"; Delete (mkDoc "notes/a.md" {["children" := VStr "x"]})])
       (clock_reads stored_world)).
Proof.
  apply (delete_existing_removes_document quiet_env (personal ++ ["notes"; "a.md"])
           stored_world "notes/a.md" {["children" := VStr "x"]}); reflexivity.
Defined.

(** X20: creating a document by Upsert and then propagating the delete
    of the same path gives the store back as it was. *)
Theorem upsert_then_delete_restores_store
  (env : Env) (p : Path) (w : World) (id : string) (content : list Z) :
  read_text p w = (Ok content, w) ->
  _doc_id_from_path Posix (vault_path env) p = Some id ->
  id ∉ _syncing w ->
  db w !! id = None ->
  (forall k, (k < 4)%nat -> faults env (length (calls w) + k) = None) ->
  fst (delete_propagation env p (snd (_sync_file_to_db env p w))) = Ok tt
  /\ db (snd (delete_propagation env p (snd (_sync_file_to_db env p w)))) = db w.
Proof.
  intros R I B D F.
  destruct (read_text_encodable _ _ _ _ R) as [encoded E].
  rewrite (upsert_ok env p w id content encoded R E I B).
  2:{ rewrite <- (F 0%nat) by lia. f_equal. lia. }
  2:{ rewrite <- (F 1%nat) by lia. f_equal. lia. }
  cbn [snd].
  erewrite delete_found; [|exact I|apply lookup_insert_eq| |].
  - cbn [fst snd db]. split; [reflexivity|].
    unfold synced_world. cbn [db]. rewrite delete_insert_eq. now apply delete_id.
  - rewrite <- (F 2%nat) by lia. f_equal. unfold synced_world. cbn [calls].
    rewrite length_app. cbn [length]. lia.
  - rewrite <- (F 3%nat) by lia. f_equal. unfold synced_world. cbn [calls].
    rewrite length_app. cbn [length]. lia.
Qed.

Lemma upsert_then_delete_restores_store_witness :
  fst (delete_propagation quiet_env (personal ++ ["notes"; "a.md"])
         (snd (_sync_file_to_db quiet_env (personal ++ ["notes"; "a.md"])
                 (world_of hello_tree)))) = Ok tt
  /\ db (snd (delete_propagation quiet_env (personal ++ ["notes"; "a.md"])
                (snd (_sync_file_to_db quiet_env (personal ++ ["notes"; "a.md"])
                        (world_of hello_tree))))) = db (world_of hello_tree).
Proof.
  apply (upsert_then_delete_restores_store quiet_env (personal ++ ["notes"; "a.md"])
           (world_of hello_tree) "notes/a.md" [104; 101; 108; 108; 111]).
  - reflexivity.
  - reflexivity.
  - compute_done.
  - reflexivity.
  - intros k _. reflexivity.
Defined.

(** X21: every operation of the engine returns the marker set as it
    found it, on every outcome: between two operations of the
    single-threaded daemon the set is what [__init__] made it. *)
Theorem marker_set_is_invariant
  (env : Env) (events : list Event) (p : Path) (w : World) :
  _syncing (snd (_sync_file_to_db env p w)) = _syncing w
  /\ _syncing (snd (delete_propagation env p w)) = _syncing w
  /\ _syncing (snd (initial_sync env w)) = _syncing w
  /\ _syncing (snd (watch_filesystem env events w)) = _syncing w
  /\ _syncing (snd (run env events w)) = _syncing w
  /\ _syncing (snd (main env events w)) = _syncing w.
Proof.
  repeat split.
  - apply sync_file_keeps_syncing.
  - now apply (preserves_delete_propagation _syncing).
  - apply initial_sync_keeps_syncing.
  - unfold watch_filesystem.
    apply (preserves_bind _syncing); [now apply preserves_logger_info|intros _].
    apply watch_loop_keeps_syncing.
  - apply run_keeps_syncing.
  - apply main_keeps_syncing.
Qed.





(** X23: an interrupt that reaches the watch loop is a clean shutdown:
    [run] logs it and exits with status 0, and the top-level handler,
    which catches [Exception] only, lets that exit through. *)
Theorem interrupt_while_watching_exits_zero
  (env : Env) (events : list Event) (w w1 w2 : World) :
  initial_sync env (add_log (INFO, StartingDaemon (vault_name env)) w) = (Ok tt, w1) ->
  watch_filesystem env events w1 = (Raise KeyboardInterrupt, w2) ->
  main env events w = (Raise (SystemExit 0), add_log (INFO, ShuttingDown) w2)
  /\ status_of (fst (main env events w)) = Exited 0.
Proof.
  intros Hi Hw.
  assert (main env events w = (Raise (SystemExit 0), add_log (INFO, ShuttingDown) w2))
    as E; [|now rewrite E].
  assert (run env events w = (Raise (SystemExit 0), add_log (INFO, ShuttingDown) w2))
    as Er.
  { unfold run. erewrite bind_ok; [|reflexivity].
    rewrite (bind_ok _ _ _ _ _ Hi). unfold try_except. now rewrite Hw. }
  unfold main, try_except. now rewrite Er.
Qed.

Lemma interrupt_while_watching_exits_zero_witness :
  main (failing_env 2 KeyboardInterrupt) delete_then_write (world_of b_only)
  = (Raise (SystemExit 0),
     add_log (INFO, ShuttingDown)
       (snd (watch_filesystem (failing_env 2 KeyboardInterrupt) delete_then_write
               (snd (initial_sync (failing_env 2 KeyboardInterrupt)
                       (add_log (INFO, StartingDaemon "personal") (world_of b_only)))))))
  /\ status_of (fst (main (failing_env 2 KeyboardInterrupt) delete_then_write
                       (world_of b_only))) = Exited 0.
Proof.
  apply (interrupt_while_watching_exits_zero (failing_env 2 KeyboardInterrupt)
           delete_then_write (world_of b_only)
           (snd (initial_sync (failing_env 2 KeyboardInterrupt)
                   (add_log (INFO, StartingDaemon "personal") (world_of b_only))))).
  - vm_compute. reflexivity.
  - vm_compute. reflexivity.
Defined.

(** X24: an interrupt during the bulk scan is not a clean shutdown: the
    [try] of [run] covers the watch loop only, so the interrupt leaves
    [run] and the top-level handler unlogged and no notification is
    handled. *)
Theorem interrupt_during_bulk_scan_escapes
  (env : Env) (events : list Event) (w w1 : World) :
  initial_sync env (add_log (INFO, StartingDaemon (vault_name env)) w)
  = (Raise KeyboardInterrupt, w1) ->
  main env events w = (Raise KeyboardInterrupt, w1)
  /\ status_of (fst (main env events w)) = Interrupted.
Proof.
  intros Hi.
  assert (run env events w = (Raise KeyboardInterrupt, w1)) as Er.
  { unfold run. erewrite bind_ok; [|reflexivity].
    now rewrite (bind_raise _ _ _ _ _ Hi). }
  assert (main env events w = (Raise KeyboardInterrupt, w1)) as E.
  { unfold main, try_except. now rewrite Er. }
  split; [exact E|]. now rewrite E.
Qed.

Lemma interrupt_during_bulk_scan_escapes_witness :
  main (failing_env 0 KeyboardInterrupt) delete_then_write (world_of b_only)
  = (Raise KeyboardInterrupt,
     snd (initial_sync (failing_env 0 KeyboardInterrupt)
            (add_log (INFO, StartingDaemon "personal") (world_of b_only))))
  /\ status_of (fst (main (failing_env 0 KeyboardInterrupt) delete_then_write
                       (world_of b_only))) = Interrupted.
Proof.
  apply (interrupt_during_bulk_scan_escapes (failing_env 0 KeyboardInterrupt)
           delete_then_write (world_of b_only)).
  vm_compute. reflexivity.
Defined.

(** ** Startup *)

Lemma lookup_vault_known v cfg :
  lookup_vault v VAULTS = Some cfg ->
  (v = "personal" \/ v = "greypillar") /\ fst cfg = v.
Proof.
  unfold VAULTS. cbn [lookup_vault].
  destruct (String.eqb_spec "personal" v) as [<-|_]; [intros [= <-]; auto|].
  destruct (String.eqb_spec "greypillar" v) as [<-|_]; [intros [= <-]; auto|].
  discriminate.
Qed.

Lemma lookup_vault_unknown v :
  v <> "personal" -> v <> "greypillar" -> lookup_vault v VAULTS = None.
Proof.
  intros H1 H2. destruct (lookup_vault v VAULTS) as [cfg|] eqn:E; [|reflexivity].
  destruct (lookup_vault_known v cfg E) as [[->| ->] _]; congruence.
Qed.

(** X25: without the name of a configured vault the process ends with
    status 1 before the engine exists: a missing argument prints the
    usage and the vault names and logs nothing; an unknown name prints
    nothing and logs the [ValueError] as fatal. *)
Theorem startup_without_vault_exits_one
  (host : Host) (argv : list string) (events : list Event) :
  (forall a0 v rest, argv = a0 :: v :: rest -> v <> "personal" /\ v <> "greypillar") ->
  exit_status (__main__ host argv events) = Exited 1
  /\ engine_world (__main__ host argv events) = None
  /\ ((length argv < 2)%nat ->
      stdout (__main__ host argv events)
      = ["Usage: python3 obsidian-sync-daemon.py <vault_name>";
         "Available vaults: personal, greypillar"]
      /\ process_log (__main__ host argv events) = [])
  /\ ((2 <= length argv)%nat ->
      stdout (__main__ host argv events) = []
      /\ process_log (__main__ host argv events)
         = [(ERROR, Engine (FatalError ValueError))]).
Proof.
  intros H. destruct argv as [|a0 [|v rest]].
  - split; [reflexivity|]. split; [reflexivity|].
    split; intros Hl; [now split|cbn [length] in Hl; lia].
  - split; [reflexivity|]. split; [reflexivity|].
    split; intros Hl; [now split|cbn [length] in Hl; lia].
  - destruct (H a0 v rest eq_refl) as [H1 H2].
    unfold __main__, __init__. rewrite (lookup_vault_unknown v H1 H2).
    cbn [is_Exception stdout process_log exit_status engine_world].
    split; [reflexivity|]. split; [reflexivity|].
    split; intros Hl; [cbn [length] in Hl; lia|now split].
Qed.

Lemma startup_without_vault_exits_one_witness :
  exit_status (__main__ (quiet_host hello_tree) ["daemon.py"; "work"] [])
  = Exited 1
  /\ engine_world (__main__ (quiet_host hello_tree) ["daemon.py"; "work"] []) = None
  /\ ((length ["daemon.py"; "work"] < 2)%nat ->
      stdout (__main__ (quiet_host hello_tree) ["daemon.py"; "work"] [])
      = ["Usage: python3 obsidian-sync-daemon.py <vault_name>";
         "Available vaults: personal, greypillar"]
      /\ process_log (__main__ (quiet_host hello_tree) ["daemon.py"; "work"] []) = [])
  /\ ((2 <= length ["daemon.py"; "work"])%nat ->
      stdout (__main__ (quiet_host hello_tree) ["daemon.py"; "work"] []) = []
      /\ process_log (__main__ (quiet_host hello_tree) ["daemon.py"; "work"] [])
         = [(ERROR, Engine (FatalError ValueError))]).
Proof.
  apply (startup_without_vault_exits_one (quiet_host hello_tree) ["daemon.py"; "work"] []).
  intros a0 v rest [= _ <- _]. split; discriminate.
Defined.

(** X26: whenever the engine did start, a configured vault was named and
    its database opened (the first record logged says so), and after the
    bulk scan and all notifications handled so far the marker set is
    empty and the local tree is the one the process found. *)
Theorem started_engine_state
  (host : Host) (argv : list string) (events : list Event) (w : World) :
  engine_world (__main__ host argv events) = Some w ->
  exists a0 v rest,
    argv = a0 :: v :: rest
    /\ (v = "personal" \/ v = "greypillar")
    /\ connect host v = None
    /\ head (process_log (__main__ host argv events))
       = Some (INFO, ConnectedToCouchDB v)
    /\ _syncing w = ∅
    /\ fs w = host_tree host.
Proof.
  destruct argv as [|a0 [|v rest]]; try discriminate.
  unfold __main__, __init__.
  destruct (lookup_vault v VAULTS) as [[db_name root]|] eqn:L; [|discriminate].
  destruct (lookup_vault_known v _ L) as [Hv Hd]. cbn [fst] in Hd. subst db_name.
  destruct (connect host v) as [e|] eqn:C;
    [cbn; destruct (is_Exception e); discriminate|].
  cbn [started_env started_world started_log engine_world process_log app head].
  intros [= <-]. exists a0, v, rest. repeat split; try assumption.
  - apply main_keeps_syncing.
  - now apply (preserves_main fs).
Qed.

Lemma started_engine_state_witness :
  exists a0 v rest,
    ["daemon.py"; "personal"] = a0 :: v :: rest
    /\ (v = "personal" \/ v = "greypillar")
    /\ connect (quiet_host hello_tree) v = None
    /\ head (process_log (__main__ (quiet_host hello_tree) ["daemon.py"; "personal"]
                            delete_then_write))
       = Some (INFO, ConnectedToCouchDB v)
    /\ _syncing (snd (main (mkEnv "personal" personal
                              (host_clock (quiet_host hello_tree))
                              (host_faults (quiet_host hello_tree)))
                        delete_then_write (world_of hello_tree))) = ∅
    /\ fs (snd (main (mkEnv "personal" personal
                        (host_clock (quiet_host hello_tree))
                        (host_faults (quiet_host hello_tree)))
                  delete_then_write (world_of hello_tree)))
       = host_tree (quiet_host hello_tree).
Proof.
  apply (started_engine_state (quiet_host hello_tree) ["daemon.py"; "personal"]
           delete_then_write).
  reflexivity.
Defined.
